(** * gostdlib/ops: retry errors, response classifiers, state machine, signaller

  A shallow embedding of the parts of the repository the specification
  talks about, followed by the properties proved about them.

  Part I holds the definitions, one module per Go package.
  Part II holds the lemmas and theorems. *)

From Stdlib Require Import String List ZArith QArith Qround Qminmax Bool Lia Lqa.
From stdpp Require Import base option gmap.
Import ListNotations.

Local Open Scope string_scope.
Local Open Scope Z_scope.
Local Open Scope list_scope.

(* ===================================================================== *)
(** * Part I: definitions *)
(* ===================================================================== *)

(** ** Go run-time conventions shared by the packages *)

Module gort.

(** A Go call either returns a value or panics (here: a nil pointer
    dereference). *)
Inductive result (A : Type) : Type :=
| Val (a : A)
| Panic.
Arguments Val {A} a.
Arguments Panic {A}.

Definition ret {A} (a : A) : result A := Val a.

Definition bind {A B} (m : result A) (k : A -> result B) : result B :=
  match m with
  | Val a => k a
  | Panic => Panic
  end.

(** Reading through a pointer: [None] is the nil pointer. *)
Definition load {A} (p : option A) : result A :=
  match p with
  | Some a => Val a
  | None => Panic
  end.

Definition is_nil {A} (p : option A) : bool :=
  match p with
  | Some _ => false
  | None => true
  end.

End gort.

#[global] Instance result_ret : MRet gort.result := @gort.ret.
#[global] Instance result_bind : MBind gort.result :=
  fun A B k m => gort.bind m k.

(** ** Error values

  A Go [error] is an interface value; the nil interface is [None] of
  [option error].  The constructors are the dynamic types that occur in
  the sources. *)

Module goerrors.

(** Package-level error values that are compared by identity. *)
Inductive sentinel : Type :=
| Canceled            (* context.Canceled *)
| DeadlineExceeded    (* context.DeadlineExceeded *)
| Permanent.          (* errors.ErrPermanent of retry/internal/errors *)

Definition sentinel_eqb (a b : sentinel) : bool :=
  match a, b with
  | Canceled, Canceled => true
  | DeadlineExceeded, DeadlineExceeded => true
  | Permanent, Permanent => true
  | _, _ => false
  end.

(** [errRetry p] is a [*exponential.Error] stored in the interface; the
    pointer is modelled by the struct it points to, and [errRetry None] is
    a nil pointer inside a non-nil interface. *)
#[local] Unset Elimination Schemes.
Inductive error : Type :=
| errSentinel (s : sentinel)
| errString (msg : string)                    (* errors.New, fmt.Errorf without %w *)
| errWrap (msg : string) (inner : error)      (* fmt.Errorf with one %w *)
| errJoin (inners : list error)               (* fmt.Errorf with several %w *)
| errStatus (code : N) (msg : string)         (* a value with a GRPCStatus method *)
| errRetry (p : option Error)
with Error : Type :=
| mkError (err : option error) (permanent : bool) (rec : Record) (cancelled : bool)
with Record : Type :=
| mkRecord (Attempt : Z) (LastInterval TotalInterval : Z) (Err : option error).
#[local] Set Elimination Schemes.

Definition err (e : Error) : option error :=
  let 'mkError x _ _ _ := e in x.
Definition permanent (e : Error) : bool :=
  let 'mkError _ x _ _ := e in x.
Definition rec (e : Error) : Record :=
  let 'mkError _ _ x _ := e in x.
Definition cancelled (e : Error) : bool :=
  let 'mkError _ _ _ x := e in x.

(** The zero values [Record{}] and [Error{}]. *)
Definition zeroRecord : Record := mkRecord 0 0 0 None.
Definition zeroError : Error := mkError None false zeroRecord false.

Definition ErrPermanent : error := errSentinel Permanent.

(** [errors.Unwrap]: calls [Unwrap() error] when the dynamic type has it.
    A value made with several %w has [Unwrap() []error] instead, which
    [errors.Unwrap] does not call; the Unwrap method of the retry
    Error guards its nil receiver. *)
Definition Unwrap (e : error) : option error :=
  match e with
  | errWrap _ inner => Some inner
  | errRetry (Some s) => err s
  | _ => None
  end.

(** [errors.Is err target] for a sentinel target: the walk over the tree
    of wrapped errors, comparing each node with the target. *)
Fixpoint Is_sentinel (e : error) (target : sentinel) {struct e} : bool :=
  match e with
  | errSentinel s => sentinel_eqb s target
  | errString _ => false
  | errWrap _ inner => Is_sentinel inner target
  | errJoin inners => existsb (fun x => Is_sentinel x target) inners
  | errStatus _ _ => false
  | errRetry None => false
  | errRetry (Some (mkError None _ _ _)) => false
  | errRetry (Some (mkError (Some inner) _ _ _)) => Is_sentinel inner target
  end.

Definition Is (e : option error) (target : sentinel) : bool :=
  match e with
  | None => false
  | Some x => Is_sentinel x target
  end.

(** [fmt.Errorf("%w: %w", a, b)], the only format with several %w in the
    sources.  The value wraps the operands that are errors; a nil operand
    is not one. *)
Definition Errorf_ww (a b : option error) : error :=
  errJoin (omap id [a; b]).

(** The number of nodes of an error value. *)
Fixpoint esize (e : error) {struct e} : nat :=
  match e with
  | errWrap _ inner => S (esize inner)
  | errJoin inners => S (list_sum (map esize inners))
  | errRetry (Some (mkError (Some inner) _ _ _)) => S (esize inner)
  | _ => 1%nat
  end.

(** The [Error()] method of each dynamic type.  The text of a sentinel is
    fixed where the value is declared, in package context and in package
    retry/internal/errors, so it is
    a parameter.  For the retry Error the method is the one of package
    exponential below: empty on a nil receiver and on a nil wrapped error. *)
Section Text.
Variable sentinel_text : sentinel -> string.

Fixpoint text (e : error) {struct e} : string :=
  match e with
  | errSentinel s => sentinel_text s
  | errString msg => msg
  | errWrap msg _ => msg
  | errJoin inners => String.concat ": " (map text inners)
  | errStatus _ msg => msg
  | errRetry None => ""
  | errRetry (Some (mkError None _ _ _)) => ""
  | errRetry (Some (mkError (Some inner) _ _ _)) => text inner
  end.
End Text.

End goerrors.

(** ** Package exponential: the retry Error *)

Module exponential.
Import goerrors.

(** The receiver of every method is a pointer to Error: [None] is nil.
    Each method is written in the order Go evaluates it: the nil test comes
    first and a field is read through [load] only after it. *)

(** [func (e *Error) Error() string] *)
Definition Error_Error (sentinel_text : sentinel -> string)
  (e : option Error) : gort.result string :=
  if gort.is_nil e then mret ""
  else
    s ← gort.load e;
    match err s with
    | None => mret ""
    | Some w => mret (text sentinel_text w)
    end.

(** [func (e *Error) Record() Record] *)
Definition Error_Record (e : option Error) : gort.result Record :=
  if gort.is_nil e then mret zeroRecord
  else s ← gort.load e; mret (rec s).

(** [func (e *Error) Cancelled() bool] *)
Definition Error_Cancelled (e : option Error) : gort.result bool :=
  if gort.is_nil e then mret false
  else s ← gort.load e; mret (cancelled s).

(** [func (e *Error) Unwrap() error] *)
Definition Error_Unwrap (e : option Error) : gort.result (option error) :=
  if gort.is_nil e then mret None
  else s ← gort.load e; mret (err s).

(** [func (e *Error) IsCancelled() bool] *)
Definition Error_IsCancelled (e : option Error) : gort.result bool :=
  if gort.is_nil e then mret false
  else
    s ← gort.load e;
    if Is (err s) Canceled then mret true
    else if Is (err s) DeadlineExceeded then mret true
    else mret false.

(** [func PermanentErr(err error) error].  The type assertion succeeds for
    every value whose dynamic type is the pointer type, a nil pointer
    included; the flag is then written through that pointer. *)
Definition PermanentErr (e : option error) : gort.result error :=
  match e with
  | Some (errRetry pe) =>
      s ← gort.load pe;
      mret (errRetry (Some (mkError (err s) true (rec s) (cancelled s))))
  | _ => mret (errRetry (Some (mkError e true zeroRecord false)))
  end.

(** [func IsPermanent(err error) bool]: the loop over [errors.Unwrap],
    by recursion on the error value (see [IsPermanent_loop] in Part II for
    the loop body as the source has it). *)
Fixpoint IsPermanent_from (e : error) {struct e} : bool :=
  match e with
  | errRetry None => false
  | errRetry (Some (mkError w p _ _)) =>
      if p then true
      else match w with
           | None => false
           | Some inner => IsPermanent_from inner
           end
  | errWrap _ inner => IsPermanent_from inner
  | _ => false
  end.

Definition IsPermanent (e : option error) : bool :=
  match e with
  | None => false
  | Some x => IsPermanent_from x
  end.

(** [func (e *Error) IsPermanent() bool] *)
Definition Error_IsPermanent (e : option Error) : gort.result bool :=
  if gort.is_nil e then mret false
  else mret (IsPermanent (Some (errRetry e))).

(** The chain of values the loop of [IsPermanent] visits: the error and
    what repeated [errors.Unwrap] gives. *)
Fixpoint chain (e : error) {struct e} : list error :=
  e :: match e with
       | errWrap _ inner => chain inner
       | errRetry (Some (mkError (Some inner) _ _ _)) => chain inner
       | _ => []
       end.

(** A pointer to an Error whose permanent flag is set. *)
Definition flagged (e : error) : bool :=
  match e with
  | errRetry (Some s) => permanent s
  | _ => false
  end.

End exponential.

(** ** Package grpc: the status-code classifier and its response inspectors *)

Module grpc.
Import goerrors.

(** The status codes of google.golang.org/grpc/codes (uint32). *)
Definition OK : N := 0.
Definition Canceled : N := 1.
Definition Unknown : N := 2.
Definition DeadlineExceeded : N := 4.
Definition NotFound : N := 5.
Definition PermissionDenied : N := 7.
Definition ResourceExhausted : N := 8.
Definition Internal : N := 13.
Definition Unavailable : N := 14.
Definition DataLoss : N := 15.

(** [grpcRetriable], the map literal of the source. *)
Definition grpcRetriable : gmap N bool :=
  <[Canceled := true]> (<[DeadlineExceeded := true]> (<[Unknown := true]>
  (<[Internal := true]> (<[Unavailable := true]>
  (<[ResourceExhausted := true]> ∅))))).

(** The default retriable codes as the documentation of Transformer lists
    them. *)
Definition retriable_codes : list N :=
  [Canceled; DeadlineExceeded; Unknown; Internal; Unavailable; ResourceExhausted].

(** Indexing a Go map of bool: a missing key reads as false. *)
Definition index (m : gmap N bool) (k : N) : bool := default false (m !! k).

Section Transformer.
(** The protocol buffer message type. *)
Variable Message : Type.
(** [status.Code] on a non-nil error and the reflective test for a method
    named GRPCStatus: both belong to libraries and are parameters. *)
Variable code_of : error -> N.
Variable has_GRPCStatus : error -> bool.

Definition ProtoToErr : Type := Message -> option error.

Record Transformer : Type := mkTransformer {
  extras : gmap N bool;
  protosToErrs : list ProtoToErr
}.

(** An option receives the pointer to the Transformer and may update it. *)
Definition Option : Type := Transformer -> Transformer * option error.

Definition WithExtraCodes (codes : list N) : Option :=
  fun t =>
    (mkTransformer (foldl (fun m code => <[code := true]> m) (extras t) codes)
                   (protosToErrs t),
     None).

Definition WithProtoToErrs (fs : list ProtoToErr) : Option :=
  fun t => (mkTransformer (extras t) fs, None).

Fixpoint applyOptions (options : list Option) (t : Transformer)
  : option Transformer * option error :=
  match options with
  | [] => (Some t, None)
  | o :: rest =>
      let '(t', e) := o t in
      match e with
      | Some x => (None, Some x)
      | None => applyOptions rest t'
      end
  end.

Definition New (options : list Option) : option Transformer * option error :=
  applyOptions options (mkTransformer ∅ []).

(** [status.Code(err)]: OK for the nil error. *)
Definition status_Code (e : option error) : N :=
  match e with
  | None => OK
  | Some x => code_of x
  end.

(** [isGRPCErr].  The reflective test is reached only with code Unknown,
    which a nil error never has. *)
Definition isGRPCErr (e : option error) : bool * N :=
  let code := status_Code e in
  if N.eqb code Unknown then
    match e with
    | Some x => if has_GRPCStatus x then (true, code) else (false, code)
    | None => (false, code)
    end
  else if N.eqb code OK then (false, code)
  else (true, code).

Definition isGRPCPermanent (t : Transformer) (code : N) : bool :=
  if index grpcRetriable code then false
  else if index (extras t) code then false
  else true.

Definition ErrTransformer (t : Transformer) (e : option error) : option error :=
  let '(isGRPC, code) := isGRPCErr e in
  if negb isGRPC then e
  else if isGRPCPermanent t code then Some (Errorf_ww e (Some ErrPermanent))
  else e.

(** The loop of [RespToErr]; [i] is the index of the next inspector and
    [log] the indices of the inspectors called so far. *)
Fixpoint inspect (fs : list ProtoToErr) (r : Message) (e : option error)
  (i : nat) (log : list nat) : option error * list nat :=
  match fs with
  | [] => (e, log)
  | respToErr :: rest =>
      let e' := respToErr r in
      match e' with
      | Some _ =>
          if Is e' Permanent then (e', log ++ [i])
          else inspect rest r e' (S i) (log ++ [i])
      | None => inspect rest r e' (S i) (log ++ [i])
      end
  end.

(** [RespToErr]; the third component is the log of inspectors called. *)
Definition RespToErr (t : Transformer) (r : Message) (e : option error)
  : Message * option error * list nat :=
  if (length (protosToErrs t) =? 0)%nat then (r, e, [])
  else match e with
       | Some _ => (r, e, [])
       | None =>
           let '(e', log) := inspect (protosToErrs t) r e 0%nat [] in
           (r, e', log)
       end.

End Transformer.

(** Two status errors for the examples. *)
Definition deniedErr : option error := Some (errStatus PermissionDenied "denied").
Definition unavailableErr : option error :=
  Some (errStatus Unavailable "try again").

(** A reference instance of the two library parameters: a value with the
    GRPCStatus method carries its code, any other error has code Unknown. *)
Definition code_of_direct (e : error) : N :=
  match e with
  | errStatus code _ => code
  | _ => Unknown
  end.

Definition has_GRPCStatus_direct (e : error) : bool :=
  match e with
  | errStatus _ _ => true
  | _ => false
  end.

(** Two inspectors for the examples: the first finds an error that can be
    retried, the second finds none. *)
Definition findsError : unit -> option error :=
  fun _ => Some (errString "response error").
Definition findsNothing : unit -> option error := fun _ => None.

End grpc.

(** ** Package http: the response inspectors *)

Module http.
Import goerrors.

Section Transformer.
(** The response type of net/http. *)
Variable Response : Type.

Definition RespToErrFn : Type := Response -> option error.

Record Transformer : Type := mkTransformer {
  respToErrs : list RespToErrFn
}.

Definition New (fs : list RespToErrFn) : Transformer := mkTransformer fs.

(** The loop of [RespToErr], with [retErr] carried along; [break] ends it. *)
Fixpoint inspect (fs : list RespToErrFn) (r : Response) (retErr : option error)
  (i : nat) (log : list nat) : option error * list nat :=
  match fs with
  | [] => (retErr, log)
  | respToErr :: rest =>
      let e := respToErr r in
      match e with
      | Some _ =>
          let wasPermanent := Is e Permanent in
          let retErr' :=
            match retErr with
            | None => e
            | Some _ => Some (Errorf_ww retErr e)
            end in
          if wasPermanent then (retErr', log ++ [i])
          else inspect rest r retErr' (S i) (log ++ [i])
      | None => inspect rest r retErr (S i) (log ++ [i])
      end
  end.

Definition RespToErr (t : Transformer) (r : Response) (e : option error)
  : Response * option error * list nat :=
  if (length (respToErrs t) =? 0)%nat then (r, e, [])
  else match e with
       | Some _ => (r, e, [])
       | None =>
           let '(retErr, log) := inspect (respToErrs t) r None 0%nat [] in
           (r, retErr, log)
       end.

End Transformer.

End http.

(** ** Package statemachine *)

Module statemachine.
Import goerrors.

(** [seenStages]: the names of the stages called so far, in call order. *)
Definition seenStages : Type := list string.

(** [seen]: the scan over the slice, then the append.  The result is the
    returned bool and the slice the receiver points to afterwards. *)
Fixpoint seen_scan (s : seenStages) (stage : string) : bool :=
  match s with
  | [] => false
  | st :: rest => if String.eqb st stage then true else seen_scan rest stage
  end.

Definition seen (s : seenStages) (stage : string) : bool * seenStages :=
  if seen_scan s stage then (true, s) else (false, s ++ [stage]).

(** [callTrace]: [i] is the index of the loop, [out] the builder. *)
Fixpoint callTrace_loop (i : nat) (s : seenStages) (out : string) : string :=
  match s with
  | [] => out
  | st :: rest =>
      let out := if negb (i =? 0)%nat then (out ++ " -> ")%string else out in
      callTrace_loop (S i) rest (out ++ st)%string
  end.

Definition callTrace (s : seenStages) : string := callTrace_loop 0 s "".

(** [reset]: the method reassigns its own copy of the receiver and returns
    it.  The result is the returned slice and the slice the receiver points
    to afterwards. *)
Definition reset (s : seenStages) : seenStages * seenStages := ([], s).

Definition nameEmptyErr : error := errString "name is empty".
Definition ctxNilErr : error := errString "Request.Ctx is nil".
Definition nextNilErr : error :=
  errString "Request.Next is nil, must be set to the initial state".
Definition reqErrNotNil : error := errString "Request.Err is not nil".
Definition execReqNextNil : error :=
  errString "bug: execState received Request.Next == nil".

(** A run of the loop of [Run] under a bound on the number of states
    executed. *)
Inductive outcome (A : Type) : Type :=
| Returned (a : A)
| OutOfFuel.
Arguments Returned {A} a.
Arguments OutOfFuel {A}.

Section Machine.
(** The payload type, and the function values of type State: a state is
    named by an identifier and applied with [call]. *)
Variable T : Type.
Variable StateId : Type.
(** context.Context and the span of the tracing library, with the test
    "the span is set and recording" and the constructor of a child span. *)
Variable Context : Type.
Variable Span : Type.
Variable IsRecording : Span -> bool.
Variable span_New : option Context -> string -> Context * Span.
(** [methodName] on a state: the name the run time has for the function. *)
Variable methodName : StateId -> string.
(** [strings.TrimSpace]. *)
Variable TrimSpace : string -> string.

(** [Request]; the start time kept for the tracing events is left out, as
    are the events themselves, which go to the span only. *)
Record Request : Type := mkRequest {
  span : Span;
  Ctx : option Context;
  Data : T;
  Err : option error;
  Next : option StateId;
  seenStagesOf : option seenStages
}.

Definition set_Next (n : option StateId) (r : Request) : Request :=
  mkRequest (span r) (Ctx r) (Data r) (Err r) n (seenStagesOf r).
Definition set_Err (e : option error) (r : Request) : Request :=
  mkRequest (span r) (Ctx r) (Data r) e (Next r) (seenStagesOf r).
Definition set_Data (d : T) (r : Request) : Request :=
  mkRequest (span r) (Ctx r) d (Err r) (Next r) (seenStagesOf r).
Definition set_Ctx_span (c : option Context) (s : Span) (r : Request) : Request :=
  mkRequest s c (Data r) (Err r) (Next r) (seenStagesOf r).
Definition set_seenStages (s : option seenStages) (r : Request) : Request :=
  mkRequest (span r) (Ctx r) (Data r) (Err r) (Next r) s.

(** Applying a state to a request. *)
Variable call : StateId -> Request -> Request.

Definition Option : Type := Request -> Request * option error.

(** The request a state is called with: under a recording span the context
    and span of a child span, and [Next] cleared. *)
Definition enter (stateName : string) (req : Request) : Request :=
  let req :=
    if IsRecording (span req) then
      let '(c, s) := span_New (Ctx req) ("State(" ++ stateName ++ ")")%string in
      set_Ctx_span (Some c) s req
    else req in
  set_Next None req.

(** [execState].  The deferred functions assign to the local request after
    the result of the state has been taken, so they do not change what is
    returned.  The third component lists the state that was called. *)
Definition execState (req : Request) : string * Request * list StateId :=
  match Next req with
  | None => ("", set_Err (Some execReqNextNil) req, [])
  | Some state =>
      let stateName := methodName state in
      (stateName, call state (enter stateName req), [state])
  end.

(** The loop over the options of [Run]. *)
Fixpoint applyOptions (options : list Option) (req : Request)
  : Request * option error :=
  match options with
  | [] => (req, None)
  | o :: rest =>
      let '(req', e) := o req in
      match e with
      | Some _ => (req', e)
      | None => applyOptions rest req'
      end
  end.

(** The loop [for req.Next != nil] of [Run]; [log] lists the states called
    so far. *)
Fixpoint loop (fuel : nat) (req : Request) (log : list StateId)
  : outcome (Request * option error * list StateId) :=
  match Next req with
  | None => Returned (req, None, log)
  | Some _ =>
      match fuel with
      | O => OutOfFuel
      | S fuel' =>
          let '(_, req', called) := execState req in
          match Err req' with
          | Some e => Returned (req', Some e, log ++ called)
          | None => loop fuel' req' (log ++ called)
          end
      end
  end.

(** [Run]. *)
Definition Run (fuel : nat) (name : string) (req : Request)
  (options : list Option) : outcome (Request * option error * list StateId) :=
  if String.eqb (TrimSpace name) "" then
    Returned (set_Next None req, Some nameEmptyErr, [])
  else if gort.is_nil (Ctx req) then
    Returned (set_Next None req, Some ctxNilErr, [])
  else if gort.is_nil (Next req) then
    Returned (set_Next None req, Some nextNilErr, [])
  else if negb (gort.is_nil (Err req)) then
    Returned (set_Next None req, Some reqErrNotNil, [])
  else
    let '(req, e) := applyOptions options req in
    match e with
    | Some _ => Returned (req, e, [])
    | None =>
        let req :=
          if IsRecording (span req) then
            let '(c, s) :=
              span_New (Ctx req) ("statemachine(" ++ name ++ ")")%string in
            set_Ctx_span (Some c) s req
          else req in
        loop fuel req []
    end.

(** The entry checks of [Run] in the order the specification gives them:
    the first one violated decides the error. *)
Inductive violation (name : string) (req : Request) : error -> Prop :=
| name_empty :
    TrimSpace name = "" ->
    violation name req nameEmptyErr
| ctx_nil :
    TrimSpace name <> "" -> Ctx req = None ->
    violation name req ctxNilErr
| next_nil :
    TrimSpace name <> "" -> Ctx req <> None -> Next req = None ->
    violation name req nextNilErr
| err_not_nil :
    TrimSpace name <> "" -> Ctx req <> None -> Next req <> None ->
    Err req <> None ->
    violation name req reqErrNotNil.

(** The request passes the entry checks. *)
Definition admissible (name : string) (req : Request) : Prop :=
  TrimSpace name <> "" /\ Ctx req <> None /\ Next req <> None /\ Err req = None.

End Machine.

Arguments span {T StateId Context Span} r.
Arguments Ctx {T StateId Context Span} r.
Arguments Data {T StateId Context Span} r.
Arguments Err {T StateId Context Span} r.
Arguments Next {T StateId Context Span} r.
Arguments seenStagesOf {T StateId Context Span} r.
Arguments mkRequest {T StateId Context Span}.
Arguments set_Next {T StateId Context Span} n r.
Arguments set_Err {T StateId Context Span} e r.
Arguments set_Data {T StateId Context Span} d r.
Arguments set_Ctx_span {T StateId Context Span} c s r.
Arguments set_seenStages {T StateId Context Span} s r.

End statemachine.

(** ** The states of the tests of package statemachine, and a cyclic chain *)

Module statemachine_test.
Import goerrors statemachine.

(** [strings.TrimSpace] on a string of ASCII characters: the white space
    characters are tab, line feed, vertical tab, form feed, carriage return
    and space. *)
Definition isSpace (c : Ascii.ascii) : bool :=
  let n := Ascii.nat_of_ascii c in
  ((9 <=? n) && (n <=? 13) || (n =? 32))%nat.

Fixpoint trimLeft (s : string) : string :=
  match s with
  | String c rest => if isSpace c then trimLeft rest else s
  | EmptyString => EmptyString
  end.

Fixpoint trimRight (s : string) : string :=
  match s with
  | String c rest =>
      match trimRight rest with
      | EmptyString => if isSpace c then EmptyString else String c EmptyString
      | rest' => String c rest'
      end
  | EmptyString => EmptyString
  end.

Definition TrimSpace (s : string) : string := trimRight (trimLeft s).

(** A context is either nil or the background context; a span is set and
    recording or not. *)
Definition IsRecording (s : bool) : bool := s.
Definition span_New (c : option unit) (name : string) : unit * bool := (tt, true).

(** The payload of the tests: [type data struct { Num int }]. *)
Definition MaxInt : Z := 9223372036854775807.
Definition wrap64 (z : Z) : Z := (z + 2 ^ 63) mod 2 ^ 64 - 2 ^ 63.

Inductive state : Type := steer | addTen | addErr.

Definition methodName (s : state) : string :=
  match s with
  | steer => "github.com/gostdlib/ops/statemachine.steer"
  | addTen => "github.com/gostdlib/ops/statemachine.addTen"
  | addErr => "github.com/gostdlib/ops/statemachine.addErr"
  end.

Definition Req : Type := Request Z state unit bool.

Definition call (s : state) (req : Req) : Req :=
  match s with
  | steer =>
      if Data req =? 0 then set_Next None req
      else if Data req =? MaxInt then set_Next (Some addErr) req
      else set_Next (Some addTen) req
  | addTen => set_Next None (set_Data (wrap64 (Data req + 10)) req)
  | addErr => set_Err (Some (errString "addErr")) req
  end.

Definition Run (fuel : nat) (name : string) (req : Req)
  (options : list (Option Z state unit bool)) :=
  statemachine.Run Z state unit bool IsRecording span_New methodName
    TrimSpace call fuel name req options.

(** The request of the test case named "Check error in addErr", run
    through [Run]. *)
Definition addErrReq : Req := mkRequest false (Some tt) 1 None (Some addErr) None.

(** The request that test case expects back: Err set, Next nil. *)
Definition addErrReturned : Req :=
  mkRequest false (Some tt) 1 (Some (errString "addErr")) None None.

(** The chain of the cycle scenario: A, then B, then C, then A again.  The
    payload counts the visits of A, and the second visit ends the run. *)
Inductive stage : Type := stageA | stageB | stageC.

Definition stageName (s : stage) : string :=
  match s with
  | stageA => "A"
  | stageB => "B"
  | stageC => "C"
  end.

Definition CReq : Type := Request Z stage unit bool.

Definition callStage (s : stage) (req : CReq) : CReq :=
  match s with
  | stageA =>
      if Data req =? 0 then set_Next (Some stageB) (set_Data 1 req)
      else set_Next None req
  | stageB => set_Next (Some stageC) req
  | stageC => set_Next (Some stageA) req
  end.

(** An option written inside the package that turns the record of seen
    stages on. *)
Definition withSeenStages : Option Z stage unit bool :=
  fun req => (set_seenStages (Some []) req, None).

Definition RunStages (fuel : nat) (name : string) (req : CReq)
  (options : list (Option Z stage unit bool)) :=
  statemachine.Run Z stage unit bool IsRecording span_New stageName
    TrimSpace callStage fuel name req options.

Definition cycleReq : CReq := mkRequest false (Some tt) 0 None (Some stageA) None.

End statemachine_test.

(** ** Package bilateral: one call of Signal *)

Module bilateral.
Import goerrors.

(** A select statement with two cases.  A case that cannot proceed is not
    taken; when both can proceed the run time picks one at random, and
    [pick] is that choice; when none can, the goroutine blocks. *)
Inductive case2 : Type := First | Second.

Definition select2 (ready1 ready2 : bool) (pick : case2) : option case2 :=
  match ready1, ready2 with
  | true, true => Some pick
  | true, false => Some First
  | false, true => Some Second
  | false, false => None
  end.

Section Signaler.
(** The type sent, the type of the reply and its zero value. *)
Variable S : Type.
Variable R : Type.
Variable rZero : R.

(** A channel of replies is known by its identity. *)
Definition AckChan : Type := nat.

Record Acker : Type := mkAcker {
  data : S;
  ack : AckChan
}.

Record signalOptions : Type := mkSignalOptions {
  wait : bool;
  promise : option AckChan
}.

Definition SignalOption : Type := signalOptions -> gort.result signalOptions.

Definition Wait : SignalOption :=
  fun s => mret (mkSignalOptions true (promise s)).

(** [Promise]: a nil channel panics when the option is applied. *)
Definition Promise (ch : option AckChan) : SignalOption :=
  fun s =>
    match ch with
    | None => gort.Panic
    | Some _ => mret (mkSignalOptions (wait s) ch)
    end.

Fixpoint applySignalOptions (options : list SignalOption) (so : signalOptions)
  : gort.result signalOptions :=
  match options with
  | [] => mret so
  | option :: rest => so' ← option so; applySignalOptions rest so'
  end.

(** The channel [sendCh] as one call of Signal meets it: the Ackers queued
    and the capacity.  Receivers take from the front of the queue in steps
    of their own. *)
Record Signaler : Type := mkSignaler {
  sendCh : list Acker;
  bufferSize : nat
}.

Definition canSend (s : Signaler) : bool :=
  (length (sendCh s) <? bufferSize s)%nat.

Definition bothWaitAndPromise : error :=
  errString "Signaler.Signal() cannot be called with both Wait() and Promise()".

(** How a call of Signal ends.  [Return] gives the queue afterwards, the two
    results, and whether the goroutine that forwards the reply to the
    promise was started. *)
Inductive ending : Type :=
| Return (queue : list Acker) (v : R) (e : option error) (forwarder : bool)
| Blocks (queue : list Acker)
| Panics.

(** [Signal].  [ackCh] is the reply channel made for this call (or taken
    from the pool).  [ctxErr] is [ctx.Err()] when the first select runs and
    [ctxErr'] when the second one does; the Done channel of the context can
    be received from exactly when that error is set.  [reply] is the value a
    receiver has put on the reply channel by the time of the second select.
    [pick] and [pick'] are the choices of the run time in the two selects. *)
Definition Signal (s : Signaler) (ctxErr ctxErr' : option error) (x : S)
  (options : list SignalOption) (ackCh : AckChan) (reply : option R)
  (pick pick' : case2) : ending :=
  match applySignalOptions options (mkSignalOptions false None) with
  | gort.Panic => Panics
  | gort.Val so =>
      if negb (gort.is_nil (promise so)) && wait so then
        Return (sendCh s) rZero (Some bothWaitAndPromise) false
      else
        let a := mkAcker x ackCh in
        match select2 (negb (gort.is_nil ctxErr)) (canSend s) pick with
        | None => Blocks (sendCh s)
        | Some First => Return (sendCh s) rZero ctxErr false
        | Some Second =>
            let queue := sendCh s ++ [a] in
            if wait so then
              match select2 (negb (gort.is_nil ctxErr'))
                            (negb (gort.is_nil reply)) pick' with
              | None => Blocks queue
              | Some First => Return queue rZero ctxErr' false
              | Some Second =>
                  match reply with
                  | Some v => Return queue v None false
                  | None => Blocks queue
                  end
              end
            else if negb (gort.is_nil (promise so)) then
              Return queue rZero None true
            else Return queue rZero None false
        end
  end.

End Signaler.

End bilateral.

(** ** Package exponential: Policy, TimeTable and randomize

    The three functions are modelled from the specification; the tests that
    call them and the table expected for the default Policy are source.
    Durations are counted in nanoseconds, as in that table, and all
    arithmetic is exact over the rationals: the rounding of the float64
    products is not part of the model. *)

Module policy.
Local Open Scope Q_scope.

Record Policy : Type := mkPolicy {
  InitialInterval : Q;
  Multiplier : Q;
  RandomizationFactor : Q;
  MaxInterval : Q
}.

(** Modelled from the spec: the constraints of a Policy (section 3), missing
    with [Policy.validate]; the messages of TestPolicyValidate name the same
    five conditions. *)
Definition valid (p : Policy) : Prop :=
  0 < InitialInterval p
  /\ 1 < Multiplier p
  /\ 0 <= RandomizationFactor p <= 1
  /\ 0 < MaxInterval p
  /\ InitialInterval p <= MaxInterval p.

(** [defaults()], with the values TestDefaults expects: 100ms, 2.0, 0.5
    and 60s. *)
Definition defaults : Policy :=
  mkPolicy 100000000 2 (1 # 2) 60000000000.

Record TimeTableEntry : Type := mkEntry {
  Attempt : Z;
  Interval : Q;
  MinInterval : Q;
  MaxIntervalOf : Q
}.

Record TimeTable : Type := mkTimeTable {
  MinTime : Q;
  MaxTime : Q;
  Entries : list TimeTableEntry
}.

Definition clamp0 (x : Q) : Q := if Qlt_le_dec x 0 then 0 else x.

(** Modelled from the spec: [randomize], missing with the Backoff type.
    Step 6 of the loop: with a draw [r] from [0,1), the next interval is
    the current one times (1 - RandomizationFactor + 2 *
    RandomizationFactor * r), clamped at 0. *)
Definition randomize (p : Policy) (r : Q) (interval : Q) : Q :=
  clamp0 (interval * (1 - RandomizationFactor p
                      + 2 * RandomizationFactor p * r)).

(** Modelled from the spec: the entry of a table for an unrandomized
    interval, missing with [Policy.TimeTable]: MinInterval and MaxInterval
    are Interval times (1 -/+ RandomizationFactor), clamped at 0. *)
Definition entry (p : Policy) (attempt : Z) (interval : Q) : TimeTableEntry :=
  mkEntry attempt interval
    (clamp0 (interval * (1 - RandomizationFactor p)))
    (clamp0 (interval * (1 + RandomizationFactor p))).

(** Modelled from the spec: one step of the generation rule of
    [Policy.TimeTable]: multiply by Multiplier, and clamp to MaxInterval a
    product that would exceed it. *)
Definition clamped (p : Policy) (interval : Q) : bool :=
  if Qlt_le_dec (MaxInterval p) (interval * Multiplier p) then true else false.

Definition step (p : Policy) (interval : Q) : Q :=
  if clamped p interval then MaxInterval p else interval * Multiplier p.

(** Modelled from the spec: the entries of [Policy.TimeTable] after the
    first, for a count of attempts: [n] entries from attempt number
    [attempt] on, starting from [interval]. *)
Fixpoint entriesFrom (p : Policy) (n : nat) (attempt : Z) (interval : Q)
  : list TimeTableEntry :=
  match n with
  | O => []
  | S n' => entry p attempt interval
            :: entriesFrom p n' (attempt + 1)%Z (step p interval)
  end.

(** Modelled from the spec: the entries of [Policy.TimeTable] after the
    first when the table runs until the maximum: up to and including the
    first clamped entry.  [fuel] bounds the number of unclamped entries. *)
Fixpoint entriesUntilMax (p : Policy) (fuel : nat) (attempt : Z) (interval : Q)
  : option (list TimeTableEntry) :=
  match fuel with
  | O => None
  | S fuel' =>
      if clamped p interval then
        Some [entry p attempt interval;
              entry p (attempt + 1)%Z (MaxInterval p)]
      else
        match entriesUntilMax p fuel' (attempt + 1)%Z (interval * Multiplier p) with
        | Some rest => Some (entry p attempt interval :: rest)
        | None => None
        end
  end.

Definition Qsum (l : list Q) : Q := fold_right Qplus 0 l.

(** Modelled from the spec: MinTime and MaxTime of [Policy.TimeTable] are
    the sums of the MinInterval and MaxInterval of the entries, as
    TestPolicyTimetable computes them for three attempts. *)
Definition tableOf (entries : list TimeTableEntry) : TimeTable :=
  mkTimeTable (Qsum (map MinInterval entries))
              (Qsum (map MaxIntervalOf entries))
              entries.

(** A bound on the unclamped entries of a valid Policy: every step adds at
    least InitialInterval * (Multiplier - 1). *)
Definition untilMaxFuel (p : Policy) : nat :=
  S (Z.to_nat (Qfloor ((MaxInterval p - InitialInterval p)
                       / (InitialInterval p * (Multiplier p - 1))))).

(** Modelled from the spec: [Policy.TimeTable].  The first entry is the
    attempt made without a wait.  A count of zero gives that entry alone, a
    count of -1 runs until the maximum; no other negative count is
    specified. *)
Definition TimeTableOf (p : Policy) (attempts : Z) : option TimeTable :=
  if (attempts =? -1)%Z then
    match entriesUntilMax p (untilMaxFuel p) 2 (InitialInterval p) with
    | Some rest => Some (tableOf (entry p 1 0 :: rest))
    | None => None
    end
  else if (attempts <? 0)%Z then None
  else Some (tableOf (entry p 1 0
                      :: entriesFrom p (Z.to_nat attempts - 1) 2 (InitialInterval p))).

(** [defaultTimeTable] of the tests. *)
Definition defaultTimeTable : TimeTable :=
  mkTimeTable 81150000000 243450000000
    [ mkEntry 1 0 0 0;
      mkEntry 2 100000000 50000000 150000000;
      mkEntry 3 200000000 100000000 300000000;
      mkEntry 4 400000000 200000000 600000000;
      mkEntry 5 800000000 400000000 1200000000;
      mkEntry 6 1600000000 800000000 2400000000;
      mkEntry 7 3200000000 1600000000 4800000000;
      mkEntry 8 6400000000 3200000000 9600000000;
      mkEntry 9 12800000000 6400000000 19200000000;
      mkEntry 10 25600000000 12800000000 38400000000;
      mkEntry 11 51200000000 25600000000 76800000000;
      mkEntry 12 60000000000 30000000000 90000000000 ].

(** Two entries, and two tables, with equal numbers. *)
Definition entry_eq (a b : TimeTableEntry) : Prop :=
  Attempt a = Attempt b
  /\ Interval a == Interval b
  /\ MinInterval a == MinInterval b
  /\ MaxIntervalOf a == MaxIntervalOf b.

Definition table_eq (a b : TimeTable) : Prop :=
  MinTime a == MinTime b /\ MaxTime a == MaxTime b
  /\ Forall2 entry_eq (Entries a) (Entries b).

End policy.

(** ** Package statemachine: the runs of the loop *)

Module statemachine_runs.
Import goerrors statemachine.

Section Machine.
Variable T : Type.
Variable StateId : Type.
Variable Context : Type.
Variable Span : Type.
Variable IsRecording : Span -> bool.
Variable span_New : option Context -> string -> Context * Span.
Variable methodName : StateId -> string.
Variable call : StateId -> Request T StateId Context Span
                -> Request T StateId Context Span.

(** The request the loop of [Run] starts from: under a recording span the
    request with the context and span of the span of the machine. *)
Definition start (name : string) (req : Request T StateId Context Span)
  : Request T StateId Context Span :=
  if IsRecording (span req) then
    let '(c, s) := span_New (Ctx req) ("statemachine(" ++ name ++ ")")%string in
    set_Ctx_span (Some c) s req
  else req.

(** [chain req sts r e]: starting from [req], the states [sts] are the ones
    that Next names one after the other; the chain ends at the request [r],
    either because Next is nil there ([e] is nil) or because the last state
    of [sts] left the error [e] in Err. *)
Inductive chain : Request T StateId Context Span -> list StateId
                  -> Request T StateId Context Span -> option error -> Prop :=
| chain_done req :
    Next req = None ->
    chain req [] req None
| chain_err req st x :
    Next req = Some st ->
    Err (call st (enter T StateId Context Span IsRecording span_New
                    (methodName st) req)) = Some x ->
    chain req [st]
          (call st (enter T StateId Context Span IsRecording span_New
                      (methodName st) req))
          (Some x)
| chain_step req st sts r e :
    Next req = Some st ->
    Err (call st (enter T StateId Context Span IsRecording span_New
                    (methodName st) req)) = None ->
    chain (call st (enter T StateId Context Span IsRecording span_New
                      (methodName st) req)) sts r e ->
    chain req (st :: sts) r e.

End Machine.

End statemachine_runs.

(** ** Package bilateral: the constructor, the receiver side, a run of calls *)

Module bilateral_channel.
Import goerrors bilateral.

Section Signaler.
Variable S : Type.
Variable R : Type.
Variable rZero : R.

(** [Option] and [BufferSize]; the sizes are the ones [make] accepts.  The
    pool of reply channels only decides where the reply channel of a call
    comes from, which is an argument of [Signal] here. *)
Definition Option : Type := Signaler S -> Signaler S.

Definition BufferSize (n : nat) : Option :=
  fun s => mkSignaler S (sendCh S s) n.

(** [New]: the options are applied to a Signaler of buffer size one, then
    the channel is made with the size they leave. *)
Definition New (options : list Option) : Signaler S :=
  let s := fold_left (fun s o => o s) options (mkSignaler S [] 1) in
  mkSignaler S [] (bufferSize S s).

(** One receive from the channel [Receive] returns: the Acker at the
    front, or nothing while the queue is empty. *)
Definition receive (s : Signaler S) : option (Acker S * Signaler S) :=
  match sendCh S s with
  | a :: rest => Some (a, mkSignaler S rest (bufferSize S s))
  | [] => None
  end.

Fixpoint receiveMany (n : nat) (s : Signaler S)
  : option (list (Acker S) * Signaler S) :=
  match n with
  | O => Some ([], s)
  | Datatypes.S n' =>
      match receive s with
      | Some (a, s') =>
          match receiveMany n' s' with
          | Some (rest, s'') => Some (a :: rest, s'')
          | None => None
          end
      | None => None
      end
  end.

(** A loop of calls [Signal(ctx, x)] without options, one for each value,
    under a context that is not cancelled; [ackCh] numbers the reply
    channels made.  The result is the Signaler after the last call, or
    nothing when a call does not return. *)
Fixpoint signalMany (s : Signaler S) (xs : list S) (ackCh : AckChan)
  (pick : case2) : option (Signaler S) :=
  match xs with
  | [] => Some s
  | x :: rest =>
      match Signal S R rZero s None None x [] ackCh None pick pick with
      | Return _ _ queue _ None _ =>
          signalMany (mkSignaler S queue (bufferSize S s)) rest (Datatypes.S ackCh) pick
      | _ => None
      end
  end.

(** The options the package offers to [Signal]. *)
Definition offered (o : SignalOption) : Prop :=
  o = Wait \/ exists ch, o = Promise (Some ch).

End Signaler.

End bilateral_channel.

(** ** Package http: ErrTransformer *)

Module http_errors.
Import goerrors.

Section Transformer.
(** The type switch on a pointer to url.Error: nothing for any other
    dynamic type, otherwise what the call of Temporary() gives. *)
Variable urlTemporary : error -> option (gort.result bool).

(** [ErrTransformer].  No case of the switch matches the nil error. *)
Definition ErrTransformer (e : option error) : gort.result (option error) :=
  match e with
  | None => mret None
  | Some x =>
      match urlTemporary x with
      | Some call =>
          temporary ← call;
          if negb temporary then mret (Some (Errorf_ww e (Some ErrPermanent)))
          else mret e
      | None => mret e
      end
  end.

End Transformer.

End http_errors.

(** ** Package grpc: the Transformer without response inspectors *)

Module grpc_plain.
Import goerrors grpc.

Section Transformer.
Variable code_of : error -> N.
Variable has_GRPCStatus : error -> bool.

Record Transformer : Type := mkTransformer {
  extras : gmap N bool
}.

(** [New(extras ...codes.Code)]: the loop that fills the map. *)
Definition New (codes : list N) : Transformer :=
  mkTransformer (foldl (fun m code => <[code := true]> m) ∅ codes).

Definition isGRPCPermanent (t : Transformer) (code : N) : bool :=
  if index grpcRetriable code then false
  else if index (extras t) code then false
  else true.

Definition ErrTransformer (t : Transformer) (e : option error) : option error :=
  let '(isGRPC, code) := isGRPCErr code_of has_GRPCStatus e in
  if negb isGRPC then e
  else if isGRPCPermanent t code then Some (Errorf_ww e (Some ErrPermanent))
  else e.

End Transformer.

End grpc_plain.

(** ** Package exponential: the RetryTester of the tests *)

Module retrytester.
Import goerrors.

Record Failures : Type := mkFailures {
  errors : list (option error);
  numFailures : Z;
  failPermanent : Z
}.

Record RetryData : Type := mkRetryData {
  SuccessOn : Z
}.

(** The counter starts at zero and only [Run] changes it, by one.  The
    field data of the struct is never read or written and is left out. *)
Record RetryTester : Type := mkRetryTester {
  failures : Failures;
  count : nat
}.

Definition NewRetryTester (f : Failures) : RetryTester := mkRetryTester f 0.

Definition zeroRetryData : RetryData := mkRetryData 0.
Definition transient : error := errString "transient error".

(** [Run]: the results, and the tester after the deferred increment. *)
Definition Run (r : RetryTester) : RetryData * option error * RetryTester :=
  let next := mkRetryTester (failures r) (S (count r)) in
  let f := failures r in
  if (0 <? length (errors f))%nat then
    if (count r <? length (errors f))%nat then
      (zeroRetryData, nth (count r) (errors f) None, next)
    else (mkRetryData (Z.of_nat (count r) + 1), None, next)
  else if numFailures f <? 0 then (zeroRetryData, Some transient, next)
  else if Z.of_nat (count r) <? numFailures f then
    if (Z.of_nat (count r) =? failPermanent f) && (0 <? failPermanent f) then
      (zeroRetryData, Some ErrPermanent, next)
    else (zeroRetryData, Some transient, next)
  else (mkRetryData (Z.of_nat (count r) + 1), None, next).

(** The results of [n] calls of [Run], one after the other. *)
Fixpoint calls (n : nat) (r : RetryTester) : list (RetryData * option error) :=
  match n with
  | O => []
  | S n' => let '(d, e, r') := Run r in (d, e) :: calls n' r'
  end.

End retrytester.

(* ===================================================================== *)
(** * Part II: lemmas and theorems *)
(* ===================================================================== *)

(** ** Package exponential: the retry Error *)

Module exponential_facts.
Import goerrors exponential.
Import gort.

(** The recursion [IsPermanent_from] is the loop of the source: test the
    dynamic type, stop on a nil pointer or on a set flag, otherwise go on
    with [errors.Unwrap]. *)
Lemma IsPermanent_loop (e : error) :
  IsPermanent (Some e) =
  match e with
  | errRetry None => false
  | errRetry (Some s) => if permanent s then true else IsPermanent (Unwrap e)
  | _ => IsPermanent (Unwrap e)
  end.
Proof.
  destruct e as [s|msg|msg inner|inners|code msg|[[w p r c]|]]; simpl; try reflexivity.
  all: try (destruct p; [reflexivity|]; destruct w; reflexivity).
Qed.

(** [IsPermanent] holds exactly when the chain of unwrapped values has a
    pointer to an Error whose flag is set. *)
Lemma IsPermanent_chain (e : error) :
  IsPermanent (Some e) = existsb flagged (chain e).
Proof.
  simpl. revert e.
  fix IH 1. intros e.
  destruct e as [s|msg|msg inner|inners|code msg|[[w p r c]|]]; simpl; try reflexivity.
  - apply IH.
  - destruct p; simpl; [reflexivity|].
    destruct w as [inner|]; simpl; [apply IH|reflexivity].
Qed.

Lemma IsPermanent_nil : IsPermanent None = false.
Proof. reflexivity. Qed.

(** Where [PermanentErr] returns, its result is permanent.  It returns for
    the nil interface and for every value other than a nil pointer to Error
    held in the interface. *)
Lemma IsPermanent_PermanentErr (e : option error) :
  e <> Some (errRetry None) ->
  exists r, PermanentErr e = Val r /\ IsPermanent (Some r) = true.
Proof.
  intros Hne.
  destruct e as [[s|msg|msg inner|inners|code msg|[[w p r c]|]]|];
    try (eexists; split; [reflexivity|reflexivity]).
  congruence.
Qed.

(** C8 (first half, at the one input where it fails).  [PermanentErr]
    applied to a nil pointer to Error held in an error interface writes the
    flag through the nil pointer: the call panics instead of returning a
    permanent error.  [IsPermanent] and every method of Error test for that
    nil pointer; [PermanentErr] does not. *)
Theorem PermanentErr_nil_pointer_panics :
  PermanentErr (Some (errRetry None)) = Panic
  /\ IsPermanent (Some (errRetry None)) = false
  /\ Error_IsPermanent None = Val false.
Proof. repeat split. Qed.


End exponential_facts.

(** ** Package grpc *)

Module grpc_facts.
Import goerrors grpc.

Lemma index_grpcRetriable (code : N) :
  index grpcRetriable code = true <-> In code retriable_codes.
Proof.
  unfold index, grpcRetriable, retriable_codes.
  repeat (rewrite lookup_insert; case_decide;
          [subst code; simpl; split; [intros _; auto 10|reflexivity]|]).
  rewrite lookup_empty. simpl. intuition congruence.
Qed.

Lemma index_insert_true (m : gmap N bool) (k code : N) :
  index (<[k := true]> m) code = true <-> code = k \/ index m code = true.
Proof.
  unfold index. rewrite lookup_insert. case_decide as Hc; simpl.
  - subst. intuition auto.
  - intuition congruence.
Qed.

Lemma index_foldl_insert (codes : list N) (m : gmap N bool) (code : N) :
  index (foldl (fun m c => <[c := true]> m) m codes) code = true
  <-> index m code = true \/ In code codes.
Proof.
  revert m. induction codes as [|c codes IH]; intros m; simpl.
  - intuition auto.
  - rewrite IH, index_insert_true. intuition auto.
Qed.

Lemma Errorf_ww_fresh (e : option error) (p : error) :
  Some (Errorf_ww e (Some p)) <> e.
Proof.
  destruct e as [x|]; [|discriminate].
  intros H. injection H as H. apply (f_equal esize) in H.
  unfold Errorf_ww in H. simpl in H. lia.
Qed.

Lemma Is_Errorf_ww_permanent (e : option error) :
  Is (Some (Errorf_ww e (Some ErrPermanent))) Permanent = true.
Proof.
  destruct e as [x|]; simpl; [|reflexivity].
  destruct (Is_sentinel x Permanent); reflexivity.
Qed.

Section Classifier.
Variable Message : Type.
Variable code_of : error -> N.
Variable has_GRPCStatus : error -> bool.

Abbreviation Transformer := (Transformer Message).
Abbreviation isGRPCErr := (isGRPCErr code_of has_GRPCStatus).
Abbreviation ErrTransformer := (ErrTransformer Message code_of has_GRPCStatus).

Lemma isGRPCErr_code (e : option error) :
  snd (isGRPCErr e) = status_Code code_of e.
Proof.
  unfold grpc.isGRPCErr.
  destruct (N.eqb _ Unknown); [destruct e as [x|]; [destruct (has_GRPCStatus x)|]|];
    try reflexivity.
  destruct (N.eqb _ OK); reflexivity.
Qed.

(** What [isGRPCErr] takes for a gRPC error: a code other than OK, and for
    the code Unknown only a value that has the GRPCStatus method itself. *)
Lemma isGRPCErr_true (e : option error) :
  fst (isGRPCErr e) = true <->
  status_Code code_of e <> OK /\
  (status_Code code_of e = Unknown ->
   exists x, e = Some x /\ has_GRPCStatus x = true).
Proof.
  unfold grpc.isGRPCErr.
  destruct (N.eqb_spec (status_Code code_of e) Unknown) as [Hu|Hu].
  - rewrite Hu. destruct e as [x|]; simpl.
    + destruct (has_GRPCStatus x) eqn:Hm; simpl.
      * split; [intros _; split; [discriminate|eauto]|reflexivity].
      * split; [discriminate|]. intros [_ H]. destruct (H eq_refl) as [y [Hy Hy']].
        injection Hy as <-. congruence.
    + split; [discriminate|]. intros [_ H]. destruct (H eq_refl) as [y [Hy _]].
      discriminate.
  - destruct (N.eqb_spec (status_Code code_of e) OK) as [Ho|Ho]; simpl.
    + split; [discriminate|]. intros [H _]. contradiction.
    + split; [intros _; split; [assumption|intros; contradiction]|reflexivity].
Qed.

(** The result of [ErrTransformer] by what [isGRPCErr] says. *)
Lemma ErrTransformer_by_isGRPCErr (t : Transformer) (e : option error) :
  (fst (isGRPCErr e) = true ->
     let code := status_Code code_of e in
     (ErrTransformer t e = Some (Errorf_ww e (Some ErrPermanent))
      <-> ~ In code retriable_codes /\ index (extras Message t) code = false)
     /\ (ErrTransformer t e = Some (Errorf_ww e (Some ErrPermanent))
         -> Is (ErrTransformer t e) Permanent = true)
     /\ (ErrTransformer t e <> Some (Errorf_ww e (Some ErrPermanent))
         -> ErrTransformer t e = e))
  /\ (fst (isGRPCErr e) = false -> ErrTransformer t e = e)
  /\ (status_Code code_of e = OK -> ErrTransformer t e = e).
Proof.
  assert (Hfalse : fst (isGRPCErr e) = false -> ErrTransformer t e = e).
  { unfold grpc.ErrTransformer. destruct (isGRPCErr e) as [b c]. simpl.
    intros ->. reflexivity. }
  split; [|split; [exact Hfalse|]].
  - intros Hg code.
    pose proof (isGRPCErr_code e) as Hc.
    unfold grpc.ErrTransformer.
    destruct (isGRPCErr e) as [b c]. simpl in Hg, Hc. subst b c. simpl.
    fold code. unfold isGRPCPermanent.
    pose proof (index_grpcRetriable code) as Hr.
    destruct (index grpcRetriable code).
    + split; [|split].
      * split; [intros H; symmetry in H; apply Errorf_ww_fresh in H; contradiction|].
        intros [Hn _]. exfalso. apply Hn, Hr. reflexivity.
      * intros H. symmetry in H. apply Errorf_ww_fresh in H. contradiction.
      * reflexivity.
    + destruct (index (extras Message t) code).
      * split; [|split].
        -- split; [intros H; symmetry in H; apply Errorf_ww_fresh in H; contradiction|].
           intros [_ H]. discriminate.
        -- intros H. symmetry in H. apply Errorf_ww_fresh in H. contradiction.
        -- reflexivity.
      * split; [|split].
        -- split; [|reflexivity]. intros _. split; [|reflexivity].
           intros Hin. apply Hr in Hin. discriminate.
        -- intros _. apply Is_Errorf_ww_permanent.
        -- intros H. contradiction.
  - intros Hok. apply Hfalse.
    destruct (fst (isGRPCErr e)) eqn:Hg; [|reflexivity].
    apply isGRPCErr_true in Hg. destruct Hg as [Hg _]. contradiction.
Qed.

(** C6.  The result of [ErrTransformer] is the error wrapped together with
    ErrPermanent exactly when the error carries a status code other than OK
    that is neither among the default retriable codes nor among the extra
    codes of the Transformer; in every other case, and so for every error
    [isGRPCErr] does not take for a gRPC error and for status code OK, the
    result is the error unchanged.  The wrapped result carries the
    permanent marker. *)
Theorem ErrTransformer_permanent_iff (t : Transformer) (e : option error) :
  let code := status_Code code_of e in
  let wrapped := Some (Errorf_ww e (Some ErrPermanent)) in
  (ErrTransformer t e = wrapped
   <-> code <> OK /\ ~ In code retriable_codes
       /\ index (extras Message t) code = false)
  /\ (ErrTransformer t e = wrapped \/ ErrTransformer t e = e)
  /\ (fst (isGRPCErr e) = false -> ErrTransformer t e = e)
  /\ (code = OK -> ErrTransformer t e = e)
  /\ Is wrapped Permanent = true.
Proof.
  intros code wrapped.
  destruct (ErrTransformer_by_isGRPCErr t e) as [Htrue [Hfalse Hok]].
  fold code in Hok.
  assert (Hfresh : e <> wrapped).
  { intros H. symmetry in H. apply Errorf_ww_fresh in H. contradiction. }
  split; [|split; [|split; [exact Hfalse|split; [exact Hok|]]]].
  - destruct (fst (isGRPCErr e)) eqn:Hg.
    + destruct (Htrue eq_refl) as [Hiff _]. fold code wrapped in Hiff.
      apply isGRPCErr_true in Hg. destruct Hg as [Hne _].
      rewrite Hiff. intuition auto.
    + rewrite (Hfalse eq_refl). split; [intros H; contradiction|].
      intros [Hne [Hnr _]]. exfalso.
      destruct (fst (isGRPCErr e)) eqn:Hg'; [discriminate|].
      assert (Hn : ~ (code <> OK /\ (code = Unknown ->
                 exists x, e = Some x /\ has_GRPCStatus x = true))).
      { intros H. apply isGRPCErr_true in H. congruence. }
      apply Hn. split; [exact Hne|]. intros Hu. exfalso. apply Hnr.
      rewrite Hu. simpl. auto.
  - subst wrapped. unfold grpc.ErrTransformer.
    destruct (grpc.isGRPCErr code_of has_GRPCStatus e) as [b c].
    destruct (negb b); [right; reflexivity|].
    destruct (isGRPCPermanent Message t c); [left|right]; reflexivity.
  - apply Is_Errorf_ww_permanent.
Qed.

(** The extra codes of a Transformer made by [New] with [WithExtraCodes]
    are the codes the caller passed. *)
Lemma New_WithExtraCodes (codes : list N) (code : N) :
  exists t, New Message [WithExtraCodes Message codes] = (Some t, None)
            /\ (index (extras Message t) code = true <-> In code codes).
Proof.
  eexists. split; [reflexivity|]. simpl.
  rewrite index_foldl_insert. unfold index. simpl. rewrite lookup_empty. simpl.
  intuition congruence.
Qed.

End Classifier.

(** A status error with code PermissionDenied is made permanent, and one
    with code Unavailable is not. *)
Lemma ErrTransformer_permanent_iff_witness :
  grpc.ErrTransformer unit code_of_direct has_GRPCStatus_direct
    (grpc.mkTransformer unit ∅ []) deniedErr
  = Some (Errorf_ww deniedErr (Some ErrPermanent))
  /\ grpc.ErrTransformer unit code_of_direct has_GRPCStatus_direct
       (grpc.mkTransformer unit ∅ []) unavailableErr
     = unavailableErr.
Proof.
  split.
  - apply (ErrTransformer_permanent_iff unit code_of_direct
             has_GRPCStatus_direct (grpc.mkTransformer unit ∅ []) deniedErr).
    vm_compute. intuition discriminate.
  - destruct (ErrTransformer_permanent_iff unit code_of_direct
                has_GRPCStatus_direct (grpc.mkTransformer unit ∅ [])
                unavailableErr) as [Hiff [[Hw|Hs] _]];
      [|exact Hs].
    apply Hiff in Hw. destruct Hw as [_ [Hn _]]. exfalso. apply Hn.
    vm_compute. auto 10.
Defined.

End grpc_facts.

(** ** The response inspectors of packages http and grpc *)

Module inspector_facts.
Import goerrors.

Section Http.
Variable Response : Type.

Abbreviation hinspect := (http.inspect Response).

(** An error already collected is never dropped by the rest of the loop. *)
Lemma http_inspect_keeps (fs : list (http.RespToErrFn Response)) (r : Response) :
  forall retErr i log,
    retErr <> None -> fst (hinspect fs r retErr i log) <> None.
Proof.
  induction fs as [|f fs IH]; intros retErr i log Hne; simpl; [exact Hne|].
  destruct (f r) as [x|] eqn:Hf.
  - destruct retErr as [y|]; [|contradiction].
    destruct (Is (Some x) Permanent); simpl; [discriminate|].
    apply IH. discriminate.
  - apply IH. exact Hne.
Qed.

(** The http loop returns an error as soon as one inspector of the list
    gives one. *)
Lemma http_inspect_never_swallows (fs : list (http.RespToErrFn Response))
  (r : Response) :
  forall retErr i log,
    (exists f, In f fs /\ f r <> None) ->
    fst (hinspect fs r retErr i log) <> None.
Proof.
  induction fs as [|f fs IH]; intros retErr i log [g [Hin Hg]]; simpl.
  - destruct Hin.
  - destruct (f r) as [x|] eqn:Hf.
    + destruct (Is (Some x) Permanent).
      * simpl. destruct retErr; discriminate.
      * apply http_inspect_keeps. destruct retErr; discriminate.
    + apply IH. destruct Hin as [<-|Hin]; [congruence|].
      exists g. split; assumption.
Qed.

(** The inspectors are called in the order of the list, without gaps: the
    log is a run of consecutive indices. *)
Lemma http_inspect_in_order (fs : list (http.RespToErrFn Response)) (r : Response) :
  forall retErr i log,
    exists k, (k <= length fs)%nat
              /\ snd (hinspect fs r retErr i log) = log ++ seq i k.
Proof.
  induction fs as [|f fs IH]; intros retErr i log; simpl.
  - exists 0%nat. split; [lia|]. simpl. rewrite app_nil_r. reflexivity.
  - destruct (f r) as [x|] eqn:Hf.
    + destruct (Is (Some x) Permanent).
      * exists 1%nat. split; [lia|]. reflexivity.
      * destruct (IH (match retErr with
                      | Some _ => Some (Errorf_ww retErr (Some x))
                      | None => Some x
                      end) (S i) (log ++ [i])) as [k [Hk Hlog]].
        exists (S k). split; [lia|]. rewrite Hlog, <- app_assoc. reflexivity.
    + destruct (IH retErr (S i) (log ++ [i])) as [k [Hk Hlog]].
      exists (S k). split; [lia|]. rewrite Hlog, <- app_assoc. reflexivity.
Qed.

(** An inspector whose error carries the permanent marker ends the http
    loop: the inspectors after it are not called. *)
Lemma http_inspect_short_circuit (pre post : list (http.RespToErrFn Response))
  (f : http.RespToErrFn Response) (r : Response) :
  (forall g, In g pre -> Is (g r) Permanent = false) ->
  Is (f r) Permanent = true ->
  forall retErr i log,
    snd (hinspect (pre ++ f :: post) r retErr i log)
    = log ++ seq i (S (length pre)).
Proof.
  intros Hpre Hf. induction pre as [|g pre IH]; intros retErr i log; simpl.
  - destruct (f r) as [x|] eqn:Hfr; [|discriminate].
    rewrite Hf. reflexivity.
  - assert (Hg : Is (g r) Permanent = false) by (apply Hpre; left; reflexivity).
    assert (Hrest : forall h, In h pre -> Is (h r) Permanent = false)
      by (intros h Hh; apply Hpre; right; exact Hh).
    destruct (g r) as [x|] eqn:Hgr.
    + rewrite Hg. rewrite (IH Hrest), <- app_assoc. reflexivity.
    + rewrite (IH Hrest), <- app_assoc. reflexivity.
Qed.

(** [RespToErr] of package http, called with a nil error and a non-empty
    list: an error of any inspector makes the result an error. *)
Lemma http_RespToErr_never_swallows (fs : list (http.RespToErrFn Response))
  (r : Response) :
  (exists f, In f fs /\ f r <> None) ->
  snd (fst (http.RespToErr Response (http.New Response fs) r None)) <> None.
Proof.
  intros Hex. unfold http.RespToErr, http.New. simpl.
  destruct fs as [|f fs]; [destruct Hex as [g [[] _]]|]. simpl length. simpl Nat.eqb.
  pose proof (http_inspect_never_swallows (f :: fs) r None 0%nat [] Hex) as H.
  destruct (hinspect (f :: fs) r None 0%nat []) as [e log]. exact H.
Qed.

End Http.

Section Grpc.
Variable Message : Type.

Abbreviation ginspect := (grpc.inspect Message).

(** The grpc loop too stops at an error that carries the permanent marker
    and returns it. *)
Lemma grpc_inspect_short_circuit (pre post : list (grpc.ProtoToErr Message))
  (f : grpc.ProtoToErr Message) (r : Message) :
  (forall g, In g pre -> Is (g r) Permanent = false) ->
  Is (f r) Permanent = true ->
  forall e i log,
    ginspect (pre ++ f :: post) r e i log
    = (f r, log ++ seq i (S (length pre))).
Proof.
  intros Hpre Hf. induction pre as [|g pre IH]; intros e i log; simpl.
  - destruct (f r) as [x|] eqn:Hfr; [|discriminate].
    rewrite Hf. reflexivity.
  - assert (Hg : Is (g r) Permanent = false) by (apply Hpre; left; reflexivity).
    assert (Hrest : forall h, In h pre -> Is (h r) Permanent = false)
      by (intros h Hh; apply Hpre; right; exact Hh).
    destruct (g r) as [x|] eqn:Hgr.
    + rewrite Hg. rewrite (IH Hrest), <- app_assoc. reflexivity.
    + rewrite (IH Hrest), <- app_assoc. reflexivity.
Qed.

(** Without a permanent error the grpc loop calls every inspector and
    each call overwrites the error: the result is what the last inspector
    returned. *)
Lemma grpc_inspect_last (fs : list (grpc.ProtoToErr Message)) (r : Message) :
  (forall g, In g fs -> Is (g r) Permanent = false) ->
  forall e i log,
    ginspect fs r e i log
    = (fold_left (fun _ g => g r) fs e, log ++ seq i (length fs)).
Proof.
  induction fs as [|f fs IH]; intros Hall e i log.
  - simpl. rewrite app_nil_r. reflexivity.
  - assert (Hf : Is (f r) Permanent = false) by (apply Hall; left; reflexivity).
    assert (Hrest : forall h, In h fs -> Is (h r) Permanent = false)
      by (intros h Hh; apply Hall; right; exact Hh).
    cbn [grpc.inspect]. rewrite Hf.
    assert (Hstep : ginspect fs r (f r) (S i) (log ++ [i])
                    = (fold_left (fun _ g => g r) (f :: fs) e,
                       log ++ seq i (length (f :: fs)))).
    { rewrite (IH Hrest). simpl. rewrite <- app_assoc. reflexivity. }
    destruct (f r); exact Hstep.
Qed.

End Grpc.

(** C7, at an input where grpc's [RespToErr] fails it.  Called with a nil
    error and two inspectors, of which the first returns an error that is not
    permanent and the second returns nil, [RespToErr] of package grpc calls
    both in order and returns the nil error: the error of the first
    inspector is lost.  [RespToErr] of package http returns that error for
    the same inspectors. *)
Theorem grpc_RespToErr_swallows_error :
  grpc.RespToErr unit
    (grpc.mkTransformer unit ∅ [grpc.findsError; grpc.findsNothing]) tt None
  = (tt, None, [0; 1]%nat)
  /\ http.RespToErr unit (http.New unit [grpc.findsError; grpc.findsNothing])
       tt None
     = (tt, Some (errString "response error"), [0; 1]%nat).
Proof. split; reflexivity. Qed.

End inspector_facts.

(** ** Package statemachine *)

Module statemachine_facts.
Import goerrors statemachine.

(** [seen] answers true exactly for a name already in the slice, and then
    leaves the slice as it is; otherwise the name is appended. *)
Lemma seen_scan_In (s : seenStages) (stage : string) :
  seen_scan s stage = true <-> In stage s.
Proof.
  induction s as [|st rest IH]; simpl.
  - split; [discriminate|intros []].
  - destruct (String.eqb_spec st stage) as [->|Hne].
    + split; [auto|reflexivity].
    + rewrite IH. split; [auto|]. intros [H|H]; [contradiction|exact H].
Qed.

Lemma seen_spec (s : seenStages) (stage : string) :
  (In stage s -> seen s stage = (true, s))
  /\ (~ In stage s -> seen s stage = (false, s ++ [stage])).
Proof.
  unfold seen. pose proof (seen_scan_In s stage) as H.
  destruct (seen_scan s stage); split; intros Hin; try reflexivity.
  - exfalso. apply Hin, H. reflexivity.
  - apply H in Hin. discriminate.
Qed.

(** The names A, B, C and then A again: the second A is reported, and the
    trace of the slice at that point has the three names. *)
Lemma seen_callTrace_example :
  let s1 := snd (seen [] "A") in
  let s2 := snd (seen s1 "B") in
  let s3 := snd (seen s2 "C") in
  seen s3 "A" = (true, ["A"; "B"; "C"]%string)
  /\ callTrace s3 = "A -> B -> C".
Proof. split; reflexivity. Qed.

Section Machine.
Variable T : Type.
Variable StateId : Type.
Variable Context : Type.
Variable Span : Type.
Variable IsRecording : Span -> bool.
Variable span_New : option Context -> string -> Context * Span.
Variable methodName : StateId -> string.
Variable TrimSpace : string -> string.
Variable call : StateId -> Request T StateId Context Span
                -> Request T StateId Context Span.

Abbreviation Req := (Request T StateId Context Span).
Abbreviation Run :=
  (statemachine.Run T StateId Context Span IsRecording span_New methodName
     TrimSpace call).
Abbreviation loop :=
  (statemachine.loop T StateId Context Span IsRecording span_New methodName call).
Abbreviation enter :=
  (statemachine.enter T StateId Context Span IsRecording span_New).
Abbreviation applyOptions := (statemachine.applyOptions T StateId Context Span).
Abbreviation violation := (statemachine.violation T StateId Context Span TrimSpace).
Abbreviation admissible := (statemachine.admissible T StateId Context Span TrimSpace).

(** One turn of the loop. *)
Lemma loop_step (fuel : nat) (req : Req) (log : list StateId) (st : StateId) :
  Next req = Some st ->
  loop (S fuel) req log =
  let req' := call st (enter (methodName st) req) in
  match Err req' with
  | Some e => Returned (req', Some e, log ++ [st])
  | None => loop fuel req' (log ++ [st])
  end.
Proof.
  intros Hn. simpl. unfold execState. rewrite Hn. reflexivity.
Qed.

(** More fuel does not change a result. *)
Lemma loop_fuel_mono (fuel : nat) :
  forall (req : Req) log x k,
    loop fuel req log = Returned x -> loop (fuel + k) req log = Returned x.
Proof.
  induction fuel as [|fuel IH]; intros req log x k H.
  - simpl in H. destruct (Next req) eqn:Hn; [discriminate|].
    destruct k; simpl; rewrite Hn; exact H.
  - destruct (Next req) as [st|] eqn:Hn.
    + rewrite (loop_step _ _ _ _ Hn) in H.
      change (S fuel + k)%nat with (S (fuel + k)).
      rewrite (loop_step _ _ _ _ Hn). cbv zeta in *.
      destruct (Err (call st (enter (methodName st) req))); [exact H|].
      apply IH. exact H.
    + simpl in *. rewrite Hn in *. exact H.
Qed.

(** What the loop returns: an error return hands back the Err the last
    state called left in the request; a return without error has Next nil. *)
Lemma loop_returns (fuel : nat) :
  forall (req r : Req) log log' e,
    loop fuel req log = Returned (r, e, log') ->
    (e = None /\ Next r = None /\ r = req /\ log' = log)
    \/ (exists st r0 pre, log' = pre ++ [st] /\ r = call st r0 /\
        ((e <> None /\ Err r = e) \/ (e = None /\ Err r = None /\ Next r = None))).
Proof.
  induction fuel as [|fuel IH]; intros req r log log' e H.
  - simpl in H. destruct (Next req) eqn:Hn; [discriminate|].
    injection H as <- <- <-. left. auto.
  - destruct (Next req) as [st|] eqn:Hn.
    + rewrite (loop_step _ _ _ _ Hn) in H. cbv zeta in H.
      destruct (Err (call st (enter (methodName st) req))) as [x|] eqn:He.
      * injection H as <- <- <-. right.
        exists st, (enter (methodName st) req), log.
        split; [reflexivity|]. split; [reflexivity|]. left.
        split; [discriminate|exact He].
      * apply IH in H. destruct H as [[-> [Hnx [-> ->]]]|H].
        -- right. exists st, (enter (methodName st) req), log.
           split; [reflexivity|]. split; [reflexivity|]. right. auto.
        -- right. exact H.
    + simpl in H. rewrite Hn in H. injection H as <- <- <-. left. auto.
Qed.

(** C3.  When an entry check of [Run] is violated, [Run] returns at once,
    whatever the fuel and the options: no state is called, the error is the
    one of the first check violated, in the order name, Ctx, Next, Err, and
    the request comes back with Next nil. *)
Theorem Run_entry_checks (name : string) (req : Req) (e : error) :
  violation name req e ->
  forall fuel options,
    Run fuel name req options = Returned (set_Next None req, Some e, []).
Proof.
  intros Hv fuel options. unfold statemachine.Run.
  destruct Hv as [Hname|Hname Hctx|Hname Hctx Hnext|Hname Hctx Hnext Herr].
  - rewrite Hname. reflexivity.
  - destruct (String.eqb_spec (TrimSpace name) "") as [H|_]; [contradiction|].
    rewrite Hctx. reflexivity.
  - destruct (String.eqb_spec (TrimSpace name) "") as [H|_]; [contradiction|].
    destruct (Ctx req); [|contradiction]. simpl.
    rewrite Hnext. reflexivity.
  - destruct (String.eqb_spec (TrimSpace name) "") as [H|_]; [contradiction|].
    destruct (Ctx req); [|contradiction].
    destruct (Next req); [|contradiction].
    destruct (Err req); [|contradiction]. reflexivity.
Qed.

(** Whenever one of the four conditions fails there is a first one. *)
Lemma violation_exists (name : string) (req : Req) :
  TrimSpace name = "" \/ Ctx req = None \/ Next req = None \/ Err req <> None ->
  exists e, violation name req e.
Proof.
  intros H.
  destruct (String.eqb_spec (TrimSpace name) "") as [Hn|Hn];
    [eexists; apply name_empty; exact Hn|].
  destruct (Ctx req) as [c|] eqn:Hc;
    [|eexists; apply ctx_nil; assumption].
  destruct (Next req) as [n|] eqn:Hx;
    [|eexists; apply next_nil; [assumption|congruence|assumption]].
  destruct (Err req) as [x|] eqn:He.
  - eexists. apply err_not_nil; congruence.
  - exfalso. destruct H as [H|[H|[H|H]]]; congruence.
Qed.

(** Past the entry checks [Run] is its options followed by its loop. *)
Lemma Run_admissible (fuel : nat) (name : string) (req : Req) options :
  admissible name req ->
  Run fuel name req options =
  let '(req1, e) := applyOptions options req in
  match e with
  | Some _ => Returned (req1, e, [])
  | None =>
      loop fuel
        (if IsRecording (span req1) then
           let '(c, s) :=
             span_New (Ctx req1) ("statemachine(" ++ name ++ ")")%string in
           set_Ctx_span (Some c) s req1
         else req1) []
  end.
Proof.
  intros [Hname [Hctx [Hnext Herr]]]. unfold statemachine.Run.
  destruct (String.eqb_spec (TrimSpace name) "") as [H|_]; [contradiction|].
  destruct (Ctx req); [|contradiction].
  destruct (Next req); [|contradiction].
  rewrite Herr. reflexivity.
Qed.


(** [enter] and the loop pass [seenStagesOf] along without reading it:
    for states that leave the field alone, a run with the field set goes
    as the run without. *)
Lemma loop_ignores_seenStages (s : option seenStages) :
  (forall st r, call st (set_seenStages s r) = set_seenStages s (call st r)) ->
  forall fuel (req : Req) log,
    loop fuel (set_seenStages s req) log =
    match loop fuel req log with
    | Returned (r, e, log') => Returned (set_seenStages s r, e, log')
    | OutOfFuel => OutOfFuel
    end.
Proof.
  intros Hcall. induction fuel as [|fuel IH]; intros req log.
  - simpl. destruct (Next req); reflexivity.
  - destruct (Next req) as [st|] eqn:Hn.
    + assert (Hn' : Next (set_seenStages s req) = Some st) by exact Hn.
      rewrite (loop_step _ _ _ _ Hn), (loop_step _ _ _ _ Hn'). cbv zeta.
      assert (He : enter (methodName st) (set_seenStages s req)
                   = set_seenStages s (enter (methodName st) req)).
      { unfold statemachine.enter. simpl.
        destruct (IsRecording (span req)); [|reflexivity].
        destruct (span_New (Ctx req) _). reflexivity. }
      rewrite He, Hcall. simpl.
      destruct (Err (call st (enter (methodName st) req))); [reflexivity|].
      apply IH.
    + simpl. rewrite Hn. reflexivity.
Qed.


End Machine.

End statemachine_facts.

(** ** The states of the tests, run through [Run] *)

Module statemachine_examples.
Import goerrors statemachine statemachine_test statemachine_facts.

(** A name of blanks fails the first entry check, with no fuel at all. *)
Lemma Run_entry_checks_witness :
  statemachine_test.TrimSpace "  " = ""
  /\ statemachine_test.Run 0 "  " addErrReq []
     = Returned (set_Next None addErrReq, Some nameEmptyErr, []).
Proof.
  split; [reflexivity|].
  apply (Run_entry_checks Z state unit bool IsRecording span_New
           statemachine_test.methodName statemachine_test.TrimSpace
           statemachine_test.call "  " addErrReq nameEmptyErr).
  apply name_empty. reflexivity.
Defined.


Lemma addErrReq_admissible :
  admissible Z state unit bool statemachine_test.TrimSpace "test" addErrReq.
Proof. repeat split; discriminate. Qed.



Lemma callStage_leaves_seenStages (s : option seenStages) (st : stage) (r : CReq) :
  callStage st (set_seenStages s r) = set_seenStages s (callStage st r).
Proof.
  destruct st; unfold callStage; simpl; try reflexivity.
  destruct (Data r =? 0); reflexivity.
Qed.

Lemma cycleReq_admissible :
  admissible Z stage unit bool statemachine_test.TrimSpace "test" cycleReq.
Proof. repeat split; discriminate. Qed.


End statemachine_examples.

(** ** Package bilateral *)

Module bilateral_facts.
Import goerrors bilateral.

Section Signaler.
Variable S : Type.
Variable R : Type.
Variable rZero : R.

Abbreviation Signal := (bilateral.Signal S R rZero).
Abbreviation Signaler := (bilateral.Signaler S).


End Signaler.



End bilateral_facts.

(** ** Package exponential: Policy, TimeTable and randomize *)

Module policy_facts.
Import policy.
Local Open Scope Q_scope.

Lemma clamp0_id (x : Q) : 0 <= x -> clamp0 x = x.
Proof.
  intros H. unfold clamp0. destruct (Qlt_le_dec x 0); [lra|reflexivity].
Qed.

Lemma clamp0_nonneg (x : Q) : 0 <= clamp0 x.
Proof. unfold clamp0. destruct (Qlt_le_dec x 0); lra. Qed.

Lemma clamp0_nonpos (x : Q) : x <= 0 -> clamp0 x == 0.
Proof.
  intros H. unfold clamp0. destruct (Qlt_le_dec x 0); lra.
Qed.

Lemma clamp0_mono (x y : Q) : x <= y -> clamp0 x <= clamp0 y.
Proof.
  intros H. unfold clamp0.
  destruct (Qlt_le_dec x 0); destruct (Qlt_le_dec y 0); lra.
Qed.

(** The factor of the jitter lies between 1 - RandomizationFactor and
    1 + RandomizationFactor. *)
Lemma jitter_factor_bounds (rf r : Q) :
  0 <= rf -> rf <= 1 -> 0 <= r -> r < 1 ->
  0 <= 1 - rf /\ 1 - rf <= 1 - rf + 2 * rf * r /\ 1 - rf + 2 * rf * r <= 1 + rf.
Proof. intros. repeat split; nra. Qed.

(** Scaling by an interval keeps the order of the factors, up to the clamp. *)
Lemma clamp0_scale (i a b : Q) :
  0 <= a -> a <= b -> clamp0 (i * a) <= clamp0 (i * b).
Proof.
  intros Ha Hab. destruct (Qlt_le_dec i 0) as [Hi|Hi].
  - rewrite (clamp0_nonpos (i * a)) by nra.
    rewrite (clamp0_nonpos (i * b)) by nra. lra.
  - apply clamp0_mono. nra.
Qed.

(** C5.  For a valid Policy and a draw r with 0 <= r < 1, the value of
    [randomize] lies between interval * (1 - RandomizationFactor) and
    interval * (1 + RandomizationFactor), both clamped at 0; for an interval
    that is not negative the clamps change nothing. *)
Theorem randomize_in_range (p : Policy) (r interval : Q) :
  valid p -> 0 <= r -> r < 1 ->
  (clamp0 (interval * (1 - RandomizationFactor p)) <= randomize p r interval
   /\ randomize p r interval <= clamp0 (interval * (1 + RandomizationFactor p)))
  /\ (0 <= interval ->
      interval * (1 - RandomizationFactor p) <= randomize p r interval
      /\ randomize p r interval <= interval * (1 + RandomizationFactor p)).
Proof.
  intros [_ [_ [[Hrf0 Hrf1] _]]] Hr0 Hr1.
  destruct (jitter_factor_bounds _ r Hrf0 Hrf1 Hr0 Hr1) as [Hlo [Hmid Hhi]].
  assert (Hboth :
    clamp0 (interval * (1 - RandomizationFactor p)) <= randomize p r interval
    /\ randomize p r interval <= clamp0 (interval * (1 + RandomizationFactor p))).
  { unfold randomize. split; apply clamp0_scale; lra. }
  split; [exact Hboth|]. intros Hi.
  rewrite (clamp0_id (interval * (1 - RandomizationFactor p))) in Hboth by nra.
  rewrite (clamp0_id (interval * (1 + RandomizationFactor p))) in Hboth by nra.
  exact Hboth.
Qed.

Lemma randomize_in_range_witness :
  500000000 <= randomize defaults (1 # 4) 1000000000
  /\ randomize defaults (1 # 4) 1000000000 <= 1500000000.
Proof.
  assert (Hv : valid defaults) by (unfold valid; simpl; repeat split; lra).
  destruct (randomize_in_range defaults (1 # 4) 1000000000 Hv) as [_ H];
    [lra|lra|].
  destruct H as [Hlo Hhi]; [lra|]. simpl in Hlo, Hhi. split; lra.
Defined.

(** *** The time table *)

Lemma entriesFrom_length (p : Policy) (n : nat) :
  forall a i, length (entriesFrom p n a i) = n.
Proof.
  induction n as [|n IH]; intros a i; simpl; [reflexivity|].
  rewrite IH. reflexivity.
Qed.

(** Entry number k of the run is made from the interval reached after k
    steps of the generation rule. *)
Lemma entriesFrom_nth (p : Policy) (n : nat) :
  forall k a i, (k < n)%nat ->
    nth_error (entriesFrom p n a i) k
    = Some (entry p (a + Z.of_nat k)%Z (Nat.iter k (step p) i)).
Proof.
  induction n as [|n IH]; intros k a i Hk; [lia|].
  destruct k as [|k].
  - simpl. rewrite Z.add_0_r. reflexivity.
  - cbn [entriesFrom nth_error]. rewrite IH by lia.
    rewrite Nat.iter_succ_r. do 2 f_equal. lia.
Qed.

(** One step of the rule is the product clamped at the maximum. *)
Lemma step_spec (p : Policy) (i : Q) :
  (MaxInterval p < i * Multiplier p -> step p i = MaxInterval p)
  /\ (i * Multiplier p <= MaxInterval p -> step p i = i * Multiplier p).
Proof.
  unfold step, clamped.
  destruct (Qlt_le_dec (MaxInterval p) (i * Multiplier p)); split; intros H;
    try reflexivity; lra.
Qed.

Lemma step_range (p : Policy) (i : Q) :
  valid p -> InitialInterval p <= i -> i <= MaxInterval p ->
  InitialInterval p <= step p i /\ step p i <= MaxInterval p.
Proof.
  intros [Hi [Hm [_ [Hx Hix]]]] Hlo Hhi. unfold step, clamped.
  destruct (Qlt_le_dec (MaxInterval p) (i * Multiplier p)); split; try lra; nra.
Qed.

Lemma iter_step_range (p : Policy) (k : nat) :
  valid p ->
  InitialInterval p <= Nat.iter k (step p) (InitialInterval p)
  /\ Nat.iter k (step p) (InitialInterval p) <= MaxInterval p.
Proof.
  intros Hv. induction k as [|k [IHlo IHhi]]; simpl.
  - destruct Hv as [_ [_ [_ [_ H]]]]. split; lra.
  - apply step_range; assumption.
Qed.

(** The bounds of an entry enclose its interval. *)
Lemma entry_bounds (p : Policy) (a : Z) (i : Q) :
  valid p -> 0 <= i ->
  MinInterval (entry p a i) <= Interval (entry p a i)
  /\ Interval (entry p a i) <= MaxIntervalOf (entry p a i).
Proof.
  intros [_ [_ [[Hrf0 Hrf1] _]]] Hi. simpl.
  rewrite !clamp0_id by nra. split; nra.
Qed.

Lemma entriesFrom_bounds (p : Policy) (n : nat) :
  valid p ->
  forall a i, InitialInterval p <= i -> i <= MaxInterval p ->
    Forall (fun e => MinInterval e <= Interval e
                     /\ Interval e <= MaxIntervalOf e)
           (entriesFrom p n a i).
Proof.
  intros Hv. induction n as [|n IH]; intros a i Hlo Hhi; simpl; constructor.
  - apply entry_bounds; [exact Hv|]. destruct Hv as [H _]. lra.
  - destruct (step_range p i Hv Hlo Hhi). apply IH; assumption.
Qed.

(** With enough fuel the run until the maximum ends, and it is the run of
    m + 2 entries whose last step is the first one clamped. *)
Lemma entriesUntilMax_spec (p : Policy) :
  valid p ->
  forall fuel a i,
    InitialInterval p <= i -> i <= MaxInterval p ->
    MaxInterval p - i
      < inject_Z (Z.of_nat fuel) * (InitialInterval p * (Multiplier p - 1)) ->
    exists m,
      entriesUntilMax p fuel a i = Some (entriesFrom p (S (S m)) a i)
      /\ (forall j, (j < m)%nat -> clamped p (Nat.iter j (step p) i) = false)
      /\ clamped p (Nat.iter m (step p) i) = true.
Proof.
  intros Hv. pose proof Hv as [Hi0 [Hm [_ [Hx Hix]]]].
  induction fuel as [|fuel IH]; intros a i Hlo Hhi Hfuel.
  - change (inject_Z (Z.of_nat 0)) with 0 in Hfuel. lra.
  - cbn [entriesUntilMax]. destruct (clamped p i) eqn:Hc.
    + exists 0%nat. split; [|split].
      * simpl. unfold step. rewrite Hc. reflexivity.
      * intros j Hj. lia.
      * exact Hc.
    + assert (Hle : i * Multiplier p <= MaxInterval p).
      { unfold clamped in Hc.
        destruct (Qlt_le_dec (MaxInterval p) (i * Multiplier p));
          [discriminate|assumption]. }
      assert (Hstep : step p i = i * Multiplier p)
        by (unfold step; rewrite Hc; reflexivity).
      rewrite Nat2Z.inj_succ in Hfuel. unfold Z.succ in Hfuel.
      rewrite inject_Z_plus in Hfuel. change (inject_Z 1) with 1 in Hfuel.
      assert (Hgrow : 0 <= (i - InitialInterval p) * (Multiplier p - 1))
        by (apply Qmult_le_0_compat; lra).
      destruct (IH (a + 1)%Z (i * Multiplier p)) as [m [Hrun [Hbefore Hlast]]];
        [nra|exact Hle|nra|].
      exists (S m). split; [|split].
      * rewrite Hrun. cbn [entriesFrom]. rewrite Hstep. reflexivity.
      * intros [|j] Hj; [exact Hc|].
        rewrite Nat.iter_succ_r, Hstep. apply Hbefore. lia.
      * rewrite Nat.iter_succ_r, Hstep. exact Hlast.
Qed.

Lemma untilMaxFuel_enough (p : Policy) :
  valid p ->
  MaxInterval p - InitialInterval p
    < inject_Z (Z.of_nat (untilMaxFuel p))
      * (InitialInterval p * (Multiplier p - 1)).
Proof.
  intros [Hi0 [Hm [_ [Hx Hix]]]]. unfold untilMaxFuel.
  set (d := InitialInterval p * (Multiplier p - 1)).
  set (x := (MaxInterval p - InitialInterval p) / d).
  assert (Hd : 0 < d) by (unfold d; nra).
  assert (Hx0 : 0 <= x).
  { unfold x. apply Qle_shift_div_l; [exact Hd|]. lra. }
  assert (Hf0 : (0 <= Qfloor x)%Z).
  { rewrite <- (Qfloor_Z 0). apply Qfloor_resp_le. exact Hx0. }
  rewrite Nat2Z.inj_succ, Z2Nat.id by exact Hf0. unfold Z.succ.
  pose proof (Qlt_floor x) as Hlt.
  assert (Hxd : x * d == MaxInterval p - InitialInterval p).
  { unfold x. field. lra. }
  nra.
Qed.

Lemma step_min (p : Policy) (i : Q) :
  step p i == Qmin (i * Multiplier p) (MaxInterval p).
Proof.
  unfold step, clamped.
  destruct (Qlt_le_dec (MaxInterval p) (i * Multiplier p)).
  - rewrite Q.min_r by lra. reflexivity.
  - rewrite Q.min_l by lra. reflexivity.
Qed.

Lemma entry_zero (p : Policy) (a : Z) :
  Interval (entry p a 0) == 0
  /\ MinInterval (entry p a 0) == 0
  /\ MaxIntervalOf (entry p a 0) == 0.
Proof.
  simpl. split; [reflexivity|]. split; apply clamp0_nonpos; lra.
Qed.

(** The table for a count of attempts N >= 1. *)
Lemma TimeTableOf_count (p : Policy) (N : Z) :
  valid p -> (1 <= N)%Z ->
  exists tt,
    TimeTableOf p N = Some tt
    /\ Z.of_nat (length (Entries tt)) = N
    /\ Forall (fun e => MinInterval e <= Interval e
                        /\ Interval e <= MaxIntervalOf e) (Entries tt)
    /\ MinTime tt = Qsum (map MinInterval (Entries tt))
    /\ MaxTime tt = Qsum (map MaxIntervalOf (Entries tt))
    /\ nth_error (Entries tt) 0 = Some (entry p 1 0)
    /\ (forall k, (1 <= k)%nat -> (Z.of_nat k < N)%Z ->
          nth_error (Entries tt) k
          = Some (entry p (Z.of_nat k + 1)
                    (Nat.iter (k - 1) (step p) (InitialInterval p)))).
Proof.
  intros Hv HN. unfold TimeTableOf.
  destruct (Z.eqb_spec N (-1)) as [H|_]; [lia|].
  destruct (Z.ltb_spec N 0) as [H|_]; [lia|].
  eexists. split; [reflexivity|]. simpl.
  rewrite entriesFrom_length.
  split; [lia|]. split; [|split; [reflexivity|split; [reflexivity|split; [reflexivity|]]]].
  - constructor.
    + apply entry_bounds; [exact Hv|lra].
    + pose proof Hv as [_ [_ [_ [_ Hix]]]].
      apply entriesFrom_bounds; [exact Hv|lra|exact Hix].
  - intros [|k] Hk1 Hk2; [lia|]. cbn [nth_error].
    rewrite entriesFrom_nth by lia.
    replace (S k - 1)%nat with k by lia. do 2 f_equal. lia.
Qed.

(** The table until the maximum is the table for m + 3 attempts, where step
    number m is the first one that is clamped; its last entry has the
    maximum for its interval. *)
Lemma TimeTableOf_until_max (p : Policy) :
  valid p ->
  exists m tt,
    TimeTableOf p (-1) = Some tt
    /\ TimeTableOf p (Z.of_nat (m + 3)) = Some tt
    /\ (forall j, (j < m)%nat ->
          clamped p (Nat.iter j (step p) (InitialInterval p)) = false)
    /\ clamped p (Nat.iter m (step p) (InitialInterval p)) = true
    /\ nth_error (Entries tt) (m + 2)
       = Some (entry p (Z.of_nat m + 3) (MaxInterval p)).
Proof.
  intros Hv. pose proof Hv as [_ [_ [_ [_ Hix]]]].
  destruct (entriesUntilMax_spec p Hv (untilMaxFuel p) 2 (InitialInterval p))
    as [m [Hrun [Hbefore Hlast]]];
    [lra|exact Hix|apply untilMaxFuel_enough; exact Hv|].
  exists m. eexists. unfold TimeTableOf.
  replace ((-1 =? -1)%Z) with true by reflexivity. rewrite Hrun.
  split; [reflexivity|].
  destruct (Z.eqb_spec (Z.of_nat (m + 3)) (-1)) as [H|_]; [lia|].
  destruct (Z.ltb_spec (Z.of_nat (m + 3)) 0) as [H|_]; [lia|].
  rewrite Nat2Z.id. replace (m + 3 - 1)%nat with (S (S m)) by lia.
  split; [reflexivity|]. split; [exact Hbefore|]. split; [exact Hlast|].
  cbn [Entries tableOf].
  replace (m + 2)%nat with (S (S m)) by lia.
  change (nth_error (entriesFrom p (S (S m)) 2 (InitialInterval p)) (S m)
          = Some (entry p (Z.of_nat m + 3) (MaxInterval p))).
  rewrite entriesFrom_nth by lia.
  rewrite Nat.iter_succ. unfold step at 1. rewrite Hlast.
  do 2 f_equal. lia.
Qed.

(** The default Policy gives the table the tests expect. *)
Lemma TimeTableOf_defaults :
  exists tt,
    TimeTableOf defaults (-1) = Some tt
    /\ table_eq tt defaultTimeTable
    /\ length (Entries tt) = 12%nat.
Proof.
  eexists. split; [vm_compute; reflexivity|]. split; [|reflexivity].
  unfold table_eq. cbn [MinTime MaxTime Entries defaultTimeTable].
  split; [vm_compute; reflexivity|]. split; [vm_compute; reflexivity|].
  repeat (constructor; [repeat split; vm_compute; reflexivity|]).
  constructor.
Qed.

(** C4.  For a valid Policy and a count N >= 1 the table has N entries,
    numbered from 1; the bounds of every entry enclose its interval; MinTime
    and MaxTime are the sums of the lower and upper bounds; the first entry
    is all zero; the second has the initial interval and every later one
    the interval before it times the multiplier, clamped at the maximum.
    For the count -1 the table is the one that ends with the first clamped
    entry.  For the default Policy that table has 12 entries, the last with
    an interval of 60s, MinTime 1m21.15s and MaxTime 4m3.45s: it is
    [defaultTimeTable]. *)
Theorem TimeTable_generation :
  (forall p, valid p ->
     (forall N, (1 <= N)%Z ->
        exists tt,
          TimeTableOf p N = Some tt
          /\ Z.of_nat (length (Entries tt)) = N
          /\ Forall (fun e => MinInterval e <= Interval e
                              /\ Interval e <= MaxIntervalOf e) (Entries tt)
          /\ MinTime tt = Qsum (map MinInterval (Entries tt))
          /\ MaxTime tt = Qsum (map MaxIntervalOf (Entries tt))
          /\ (exists e, nth_error (Entries tt) 0 = Some e /\ Attempt e = 1%Z
                        /\ Interval e == 0 /\ MinInterval e == 0
                        /\ MaxIntervalOf e == 0)
          /\ (forall k, (1 <= k)%nat -> (Z.of_nat k < N)%Z ->
                exists e, nth_error (Entries tt) k = Some e
                          /\ Attempt e = (Z.of_nat k + 1)%Z
                          /\ Interval e
                             = Nat.iter (k - 1) (step p) (InitialInterval p)))
     /\ (forall i, step p i == Qmin (i * Multiplier p) (MaxInterval p))
     /\ (exists m tt,
           TimeTableOf p (-1) = Some tt
           /\ TimeTableOf p (Z.of_nat (m + 3)) = Some tt
           /\ (forall j, (j < m)%nat ->
                 clamped p (Nat.iter j (step p) (InitialInterval p)) = false)
           /\ clamped p (Nat.iter m (step p) (InitialInterval p)) = true
           /\ exists e, nth_error (Entries tt) (m + 2) = Some e
                        /\ Interval e = MaxInterval p))
  /\ (exists tt,
        TimeTableOf defaults (-1) = Some tt
        /\ table_eq tt defaultTimeTable
        /\ length (Entries tt) = 12%nat
        /\ (exists e, nth_error (Entries tt) 11 = Some e
                      /\ Interval e == 60000000000)
        /\ MinTime tt == 81150000000
        /\ MaxTime tt == 243450000000).
Proof.
  split.
  - intros p Hv. split; [|split].
    + intros N HN.
      destruct (TimeTableOf_count p N Hv HN)
        as [tt [Htt [Hlen [Hb [Hmin [Hmax [H0 Hk]]]]]]].
      exists tt. repeat (split; [assumption|]). split.
      * exists (entry p 1 0). split; [exact H0|]. split; [reflexivity|].
        apply entry_zero.
      * intros k Hk1 Hk2. eexists. split; [apply Hk; assumption|].
        split; reflexivity.
    + apply step_min.
    + destruct (TimeTableOf_until_max p Hv)
        as [m [tt [Htt [Hsame [Hbefore [Hlast Hnth]]]]]].
      exists m, tt. repeat (split; [assumption|]).
      eexists. split; [exact Hnth|reflexivity].
  - destruct TimeTableOf_defaults as [tt [Htt [Heq Hlen]]].
    exists tt. split; [exact Htt|]. split; [exact Heq|]. split; [exact Hlen|].
    injection Htt as <-. split; [|split].
    + eexists. split; [vm_compute; reflexivity|]. vm_compute. reflexivity.
    + vm_compute. reflexivity.
    + vm_compute. reflexivity.
Qed.

(** The table for three attempts of the default Policy, as in
    TestPolicyTimetable. *)
Lemma TimeTable_generation_witness :
  exists tt,
    TimeTableOf defaults 3 = Some tt
    /\ Z.of_nat (length (Entries tt)) = 3%Z
    /\ MinTime tt == 150000000
    /\ MaxTime tt == 450000000.
Proof.
  assert (Hv : valid defaults) by (unfold valid; simpl; repeat split; lra).
  destruct TimeTable_generation as [Hgen _].
  destruct (Hgen defaults Hv) as [Hcount _].
  destruct (Hcount 3%Z) as [tt [Htt [Hlen _]]]; [lia|].
  exists tt. split; [exact Htt|]. split; [exact Hlen|].
  injection Htt as <-. split; vm_compute; reflexivity.
Defined.

End policy_facts.

(** ** Package statemachine: the runs of the loop, the record of stages *)

Module statemachine_runs_facts.
Import goerrors statemachine statemachine_runs.

Lemma append_assoc (a b c : string) :
  ((a ++ b) ++ c)%string = (a ++ (b ++ c))%string.
Proof.
  induction a as [|ch a IH]; [reflexivity|].
  change (String ch ((a ++ b) ++ c)%string = String ch (a ++ (b ++ c))%string).
  f_equal. exact IH.
Qed.

Lemma append_empty_r (a : string) : (a ++ "")%string = a.
Proof.
  induction a as [|ch a IH]; [reflexivity|].
  change (String ch (a ++ "")%string = String ch a). f_equal. exact IH.
Qed.

(** Past the first name the index of the loop of [callTrace] does not
    matter, and what is in the builder stays in front. *)
Lemma callTrace_loop_index (s : seenStages) :
  forall i out, callTrace_loop (S i) s out = callTrace_loop 1 s out.
Proof.
  induction s as [|st rest IH]; intros i out; [reflexivity|].
  cbn [callTrace_loop Nat.eqb negb].
  rewrite (IH (S i)), (IH 1%nat). reflexivity.
Qed.

Lemma callTrace_loop_prefix (s : seenStages) :
  forall out, callTrace_loop 1 s out = (out ++ callTrace_loop 1 s "")%string.
Proof.
  induction s as [|st rest IH]; intros out.
  - simpl. rewrite append_empty_r. reflexivity.
  - cbn [callTrace_loop Nat.eqb negb]. rewrite !(callTrace_loop_index rest 1).
    rewrite (IH ((out ++ " -> ") ++ st)%string).
    rewrite (IH (("" ++ " -> ") ++ st)%string).
    rewrite !append_assoc. reflexivity.
Qed.

Lemma concat_arrow (rest : seenStages) :
  forall st,
    String.concat " -> " (st :: rest) = (st ++ callTrace_loop 1 rest "")%string.
Proof.
  induction rest as [|st' rest IH]; intros st.
  - simpl. rewrite append_empty_r. reflexivity.
  - change (String.concat " -> " (st :: st' :: rest))
      with (st ++ " -> " ++ String.concat " -> " (st' :: rest))%string.
    rewrite IH. cbn [callTrace_loop Nat.eqb negb].
    rewrite (callTrace_loop_index rest 1).
    rewrite (callTrace_loop_prefix rest (("" ++ " -> ") ++ st')%string).
    rewrite !append_assoc. reflexivity.
Qed.

(** [callTrace] is the names of the slice joined by the arrow, and the
    empty string for the empty slice. *)
Theorem callTrace_joins (s : seenStages) :
  callTrace s = String.concat " -> " s.
Proof.
  destruct s as [|st rest]; [reflexivity|].
  unfold callTrace. cbn [callTrace_loop Nat.eqb negb].
  rewrite concat_arrow, (callTrace_loop_prefix rest ("" ++ st)%string).
  reflexivity.
Qed.

Lemma NoDup_snoc (s : list string) (x : string) :
  List.NoDup s -> ~ In x s -> List.NoDup (s ++ [x]).
Proof.
  induction 1 as [|y s Hy Hnd IH]; intros Hx; simpl.
  - constructor; [intros []|constructor].
  - constructor.
    + intros Hin. apply in_app_or in Hin. destruct Hin as [Hin|[<-|[]]].
      * contradiction.
      * apply Hx. left. reflexivity.
    + apply IH. intros Hin. apply Hx. right. exact Hin.
Qed.

(** [seen] keeps the slice free of repeats and in the order of first
    appearance: what was recorded stays where it is, the name asked for is
    in the slice afterwards, and asking for it again answers true and
    changes nothing. *)
Theorem seen_records_once (s : seenStages) (stage : string) :
  List.NoDup s ->
  List.NoDup (snd (seen s stage))
  /\ In stage (snd (seen s stage))
  /\ (snd (seen s stage) = s \/ snd (seen s stage) = s ++ [stage])
  /\ seen (snd (seen s stage)) stage = (true, snd (seen s stage)).
Proof.
  intros Hnd.
  destruct (statemachine_facts.seen_spec s stage) as [Hin Hout].
  destruct (in_dec string_dec stage s) as [H|H].
  - rewrite (Hin H). simpl. repeat split; auto.
  - rewrite (Hout H). simpl.
    assert (Hin' : In stage (s ++ [stage])) by (apply in_or_app; right; left; reflexivity).
    repeat split; auto.
    + apply NoDup_snoc; assumption.
    + destruct (statemachine_facts.seen_spec (s ++ [stage]) stage) as [Hin2 _].
      apply Hin2. exact Hin'.
Qed.

Lemma seen_records_once_witness :
  seen ["A"; "B"]%string "C" = (false, ["A"; "B"; "C"]%string)
  /\ List.NoDup (snd (seen ["A"; "B"]%string "C")).
Proof.
  split; [reflexivity|].
  apply (seen_records_once ["A"; "B"]%string "C").
  repeat constructor; simpl; intuition discriminate.
Defined.

Section Machine.
Variable T : Type.
Variable StateId : Type.
Variable Context : Type.
Variable Span : Type.
Variable IsRecording : Span -> bool.
Variable span_New : option Context -> string -> Context * Span.
Variable methodName : StateId -> string.
Variable TrimSpace : string -> string.
Variable call : StateId -> Request T StateId Context Span
                -> Request T StateId Context Span.

Abbreviation Req := (Request T StateId Context Span).
Abbreviation Run :=
  (statemachine.Run T StateId Context Span IsRecording span_New methodName
     TrimSpace call).
Abbreviation loop :=
  (statemachine.loop T StateId Context Span IsRecording span_New methodName call).
Abbreviation enter :=
  (statemachine.enter T StateId Context Span IsRecording span_New).
Abbreviation admissible := (statemachine.admissible T StateId Context Span TrimSpace).
Abbreviation chain :=
  (statemachine_runs.chain T StateId Context Span IsRecording span_New
     methodName call).
Abbreviation start :=
  (statemachine_runs.start T StateId Context Span IsRecording span_New).
Abbreviation loop_step :=
  (statemachine_facts.loop_step T StateId Context Span IsRecording span_New
     methodName call).

Lemma loop_done (fuel : nat) (req : Req) (log : list StateId) :
  Next req = None -> loop fuel req log = Returned (req, None, log).
Proof. intros Hn. destruct fuel; simpl; rewrite Hn; reflexivity. Qed.

(** A chain of K states is run by the loop with any fuel of K or more. *)
Lemma loop_of_chain (req r : Req) sts e :
  chain req sts r e ->
  forall fuel log, (length sts <= fuel)%nat ->
    loop fuel req log = Returned (r, e, log ++ sts).
Proof.
  induction 1 as [req Hn|req st x Hn He|req st sts r e Hn He Hch IH];
    intros fuel log Hfuel.
  - rewrite app_nil_r. apply loop_done. exact Hn.
  - destruct fuel as [|fuel]; [simpl in Hfuel; lia|].
    rewrite (loop_step _ _ _ _ Hn). cbv zeta. rewrite He. reflexivity.
  - destruct fuel as [|fuel]; [simpl in Hfuel; lia|].
    rewrite (loop_step _ _ _ _ Hn). cbv zeta. rewrite He.
    rewrite IH by (simpl in Hfuel; lia). rewrite <- app_assoc. reflexivity.
Qed.

(** What the loop returns is the end of a chain no longer than the fuel. *)
Lemma chain_of_loop (fuel : nat) :
  forall (req r : Req) log log' e,
    loop fuel req log = Returned (r, e, log') ->
    exists sts, log' = log ++ sts /\ chain req sts r e
                /\ (length sts <= fuel)%nat.
Proof.
  induction fuel as [|fuel IH]; intros req r log log' e H.
  - simpl in H. destruct (Next req) eqn:Hn; [discriminate|].
    injection H as <- <- <-. exists []. rewrite app_nil_r.
    split; [reflexivity|]. split; [constructor; exact Hn|simpl; lia].
  - destruct (Next req) as [st|] eqn:Hn.
    + rewrite (loop_step _ _ _ _ Hn) in H. cbv zeta in H.
      destruct (Err (call st (enter (methodName st) req))) as [x|] eqn:He.
      * injection H as <- <- <-. exists [st].
        split; [reflexivity|]. split; [|simpl; lia].
        apply chain_err; assumption.
      * apply IH in H. destruct H as [sts [-> [Hch Hlen]]].
        exists (st :: sts). rewrite <- app_assoc.
        split; [reflexivity|]. split; [|simpl; lia].
        apply chain_step; assumption.
    + rewrite (loop_done _ _ _ Hn) in H. injection H as <- <- <-.
      exists []. rewrite app_nil_r.
      split; [reflexivity|]. split; [constructor; exact Hn|simpl; lia].
Qed.

(** The requests the loop hands to the states have Err nil, and so has the
    request of a return without error. *)
Lemma chain_Err (req r : Req) sts e :
  chain req sts r e -> Err req = None ->
  (e = None -> Err r = None /\ Next r = None)
  /\ (forall x, e = Some x ->
        exists st r0 pre, sts = pre ++ [st] /\ Err r0 = None
                          /\ r = call st r0 /\ Err r = Some x).
Proof.
  induction 1 as [req Hn|req st x Hn He|req st sts r e Hn He Hch IH];
    intros Hreq.
  - split; [auto|]. intros x Hx. discriminate.
  - split; [discriminate|]. intros y Hy. injection Hy as <-.
    exists st, (enter (methodName st) req), [].
    repeat split; try assumption.
    unfold statemachine.enter. destruct (IsRecording (span req)); [|exact Hreq].
    destruct (span_New (Ctx req) _). exact Hreq.
  - destruct (IH He) as [Hnone Hsome]. split; [exact Hnone|].
    intros x Hx. destruct (Hsome x Hx) as [st' [r0 [pre [-> H]]]].
    exists st', r0, (st :: pre). split; [reflexivity|exact H].
Qed.

Lemma start_Err (name : string) (req : Req) : Err (start name req) = Err req.
Proof.
  unfold statemachine_runs.start. destruct (IsRecording (span req)); [|reflexivity].
  destruct (span_New (Ctx req) _). reflexivity.
Qed.

Lemma Run_is_loop (fuel : nat) (name : string) (req : Req) :
  admissible name req -> Run fuel name req [] = loop fuel (start name req) [].
Proof.
  intros Hadm.
  rewrite (statemachine_facts.Run_admissible T StateId Context Span IsRecording
             span_New methodName TrimSpace call fuel name req [] Hadm).
  reflexivity.
Qed.


(** When [Run], given a request that passes the entry checks and no
    options, returns without error, the request it returns has both Err and
    Next nil. *)
Theorem Run_success_is_clean (fuel : nat) (name : string) (req r : Req) log :
  admissible name req ->
  Run fuel name req [] = Returned (r, None, log) ->
  Err r = None /\ Next r = None.
Proof.
  intros Hadm H. rewrite (Run_is_loop _ _ _ Hadm) in H.
  apply chain_of_loop in H. destruct H as [sts [_ [Hch _]]].
  destruct (chain_Err _ _ _ _ Hch) as [Hnone _].
  - rewrite start_Err. destruct Hadm as [_ [_ [_ He]]]. exact He.
  - apply Hnone. reflexivity.
Qed.

(** The error of [execState] for a request without Next is never made by
    [Run]: as long as no state, given a request with Err nil, stores that
    error itself, [Run] does not return it for a request that passes the
    entry checks. *)
Theorem Run_never_makes_bug_error (fuel : nat) (name : string) (req r : Req) log :
  (forall st r0, Err r0 = None -> Err (call st r0) <> Some execReqNextNil) ->
  admissible name req ->
  Run fuel name req [] <> Returned (r, Some execReqNextNil, log).
Proof.
  intros Hcall Hadm H. rewrite (Run_is_loop _ _ _ Hadm) in H.
  apply chain_of_loop in H. destruct H as [sts [_ [Hch _]]].
  destruct (chain_Err _ _ _ _ Hch) as [_ Hsome].
  - rewrite start_Err. destruct Hadm as [_ [_ [_ He]]]. exact He.
  - destruct (Hsome _ eq_refl) as [st [r0 [pre [_ [Hr0 [-> He]]]]]].
    exact (Hcall st r0 Hr0 He).
Qed.

End Machine.

End statemachine_runs_facts.

(** ** Package bilateral: options, bounds and order *)

Module bilateral_channel_facts.
Import goerrors bilateral bilateral_channel.

(** What a list of offered options leaves in the option record. *)
Lemma applySignalOptions_offered (options : list SignalOption) :
  Forall offered options ->
  forall so0, exists so,
    applySignalOptions options so0 = gort.Val so
    /\ (wait so = true <-> wait so0 = true \/ In Wait options)
    /\ (promise so <> None <->
        promise so0 <> None \/ exists ch, In (Promise (Some ch)) options).
Proof.
  induction 1 as [|o options Ho Hrest IH]; intros so0.
  - exists so0. split; [reflexivity|]. simpl. split; split.
    + auto.
    + intros [H|[]]. exact H.
    + auto.
    + intros [H|[c []]]. exact H.
  - destruct Ho as [->|[ch ->]].
    + destruct (IH (mkSignalOptions true (promise so0))) as [so [Hrun [Hw Hp]]].
      exists so. split; [exact Hrun|]. simpl in Hw, Hp. split.
      * rewrite Hw. simpl. intuition auto.
      * rewrite Hp. split.
        -- intros [H|[c Hc]]; [left; exact H|right; exists c; right; exact Hc].
        -- intros [H|[c [Hc|Hc]]]; [left; exact H| |right; exists c; exact Hc].
           exfalso. apply (f_equal (fun f => f (mkSignalOptions false None))) in Hc.
           discriminate.
    + destruct (IH (mkSignalOptions (wait so0) (Some ch))) as [so [Hrun [Hw Hp]]].
      exists so. split; [exact Hrun|]. simpl in Hw, Hp. split.
      * rewrite Hw. split.
        -- intros [H|H]; [left; exact H|right; right; exact H].
        -- intros [H|[H|H]]; [left; exact H| |right; exact H].
           exfalso. apply (f_equal (fun f => f (mkSignalOptions false None))) in H.
           discriminate.
      * rewrite Hp. split.
        -- intros _. right. exists ch. left. reflexivity.
        -- intros _. left. discriminate.
Qed.

Section Signaler.
Variable S : Type.
Variable R : Type.
Variable rZero : R.

Abbreviation Signal := (bilateral.Signal S R rZero).
Abbreviation Signaler := (bilateral.Signaler S).

(** Wait together with Promise, in any order and among any other offered
    options, makes [Signal] return its error for that combination: nothing
    is enqueued, whatever the context, the queue and the choices of the
    selects. *)
Theorem Signal_rejects_Wait_with_Promise (s : Signaler) ctxErr ctxErr' (x : S)
  options ch ackCh reply pick pick' :
  Forall offered options ->
  In Wait options ->
  In (Promise (Some ch)) options ->
  Signal s ctxErr ctxErr' x options ackCh reply pick pick'
  = Return S R (sendCh S s) rZero (Some bothWaitAndPromise) false.
Proof.
  intros Hoff Hw Hp.
  destruct (applySignalOptions_offered options Hoff (mkSignalOptions false None))
    as [so [Hrun [Hwait Hprom]]].
  unfold bilateral.Signal. rewrite Hrun.
  assert (Hw' : wait so = true) by (apply Hwait; right; exact Hw).
  assert (Hp' : promise so <> None) by (apply Hprom; right; exists ch; exact Hp).
  rewrite Hw'. destruct (promise so); [reflexivity|contradiction].
Qed.

(** A Promise with a nil channel makes [Signal] panic when the option is
    applied, after any offered options and before anything is enqueued. *)
Theorem Signal_panics_on_nil_Promise (s : Signaler) ctxErr ctxErr' (x : S)
  before after ackCh reply pick pick' :
  Forall offered before ->
  Signal s ctxErr ctxErr' x (before ++ Promise None :: after) ackCh reply
    pick pick'
  = Panics S R.
Proof.
  intros Hoff. unfold bilateral.Signal.
  assert (H : forall so0,
             applySignalOptions (before ++ Promise None :: after) so0
             = gort.Panic).
  { induction Hoff as [|o before Ho Hrest IH]; intros so0; [reflexivity|].
    destruct Ho as [->|[ch ->]]; simpl; apply IH. }
  rewrite H. reflexivity.
Qed.

(** [Signal] keeps the queue within the buffer size and never reorders or
    drops what is queued: however the call ends, the queue is the one
    before, or the one before with the Acker of this call at the back, and
    it is no longer than the buffer size. *)
Theorem Signal_keeps_bound (s : Signaler) ctxErr ctxErr' (x : S) options ackCh
  reply pick pick' :
  (length (sendCh S s) <= bufferSize S s)%nat ->
  match Signal s ctxErr ctxErr' x options ackCh reply pick pick' with
  | Return _ _ queue _ _ _ | Blocks _ _ queue =>
      (queue = sendCh S s \/ queue = sendCh S s ++ [mkAcker S x ackCh])
      /\ (length queue <= bufferSize S s)%nat
  | Panics _ _ => True
  end.
Proof.
  intros Hlen. unfold bilateral.Signal.
  destruct (applySignalOptions options _) as [so|]; [|exact I].
  destruct (negb (gort.is_nil (promise so)) && wait so); [auto|].
  unfold canSend.
  destruct (Nat.ltb_spec (length (sendCh S s)) (bufferSize S s)) as [Hroom|Hfull].
  - assert (Hq : (length (sendCh S s ++ [mkAcker S x ackCh]) <= bufferSize S s)%nat).
    { rewrite length_app. simpl. lia. }
    destruct (negb (gort.is_nil ctxErr)), pick; simpl; auto;
      destruct (wait so); auto;
      try (destruct (negb (gort.is_nil (promise so))); auto);
      destruct (select2 _ _ pick') as [[|]|]; auto;
      destruct reply; auto.
  - destruct (negb (gort.is_nil ctxErr)); simpl; auto.
Qed.

(** Under a context that is not cancelled, a run of calls without options
    that fits into the buffer returns every time and queues the values in
    the order of the calls. *)
Theorem signalMany_queues_in_order (s : Signaler) (xs : list S) pick :
  forall ackCh,
  (length (sendCh S s) + length xs <= bufferSize S s)%nat ->
  exists s',
    signalMany S R rZero s xs ackCh pick = Some s'
    /\ bufferSize S s' = bufferSize S s
    /\ map (data S) (sendCh S s') = map (data S) (sendCh S s) ++ xs.
Proof.
  revert s. induction xs as [|x xs IH]; intros s ackCh Hlen.
  - exists s. simpl. rewrite app_nil_r. auto.
  - simpl in Hlen. cbn [signalMany]. unfold bilateral.Signal. simpl.
    unfold canSend.
    destruct (Nat.ltb_spec (length (sendCh S s)) (bufferSize S s)) as [_|H];
      [|lia].
    simpl.
    destruct (IH (mkSignaler S (sendCh S s ++ [mkAcker S x ackCh])
                    (bufferSize S s)) (Datatypes.S ackCh))
      as [s' [Hrun [Hcap Hdata]]].
    { simpl. rewrite length_app. simpl. lia. }
    exists s'. split; [exact Hrun|]. split; [exact Hcap|].
    rewrite Hdata. simpl. rewrite map_app. simpl. rewrite <- app_assoc.
    reflexivity.
Qed.

(** Receiving as many times as there are Ackers queued hands them out from
    the front, in order, and leaves the queue empty. *)
Lemma receiveMany_all (queue : list (Acker S)) (cap : nat) :
  receiveMany S (length queue) (mkSignaler S queue cap)
  = Some (queue, mkSignaler S [] cap).
Proof.
  induction queue as [|a queue IH]; [reflexivity|].
  simpl. unfold receive. simpl. rewrite IH. reflexivity.
Qed.

(** What is signalled is what is received, in the same order: on a
    Signaler made by [New] with buffer size n, the values of up to n calls
    of [Signal] come out of as many receives as the data of the Ackers, one
    for one. *)
Theorem signal_receive_round_trip (n : nat) (xs : list S) ackCh pick :
  (length xs <= n)%nat ->
  exists s' ackers rest,
    signalMany S R rZero (New S [BufferSize S n]) xs ackCh pick = Some s'
    /\ receiveMany S (length xs) s' = Some (ackers, rest)
    /\ map (data S) ackers = xs
    /\ sendCh S rest = [].
Proof.
  intros Hlen.
  destruct (signalMany_queues_in_order (New S [BufferSize S n]) xs pick ackCh)
    as [s' [Hrun [Hcap Hdata]]]; [simpl; lia|].
  simpl in Hdata.
  assert (Hl : length xs = length (sendCh S s')).
  { rewrite <- Hdata, length_map. reflexivity. }
  exists s', (sendCh S s'), (mkSignaler S [] (bufferSize S s')).
  split; [exact Hrun|]. split; [|split; [exact Hdata|reflexivity]].
  rewrite Hl. destruct s' as [q c]. apply receiveMany_all.
Qed.

End Signaler.

Lemma Signal_rejects_Wait_with_Promise_witness :
  bilateral.Signal nat nat 0%nat (mkSignaler nat [] 1) None None 7%nat
    [Wait; Promise (Some 3%nat)] 0%nat None First First
  = Return nat nat [] 0%nat (Some bothWaitAndPromise) false.
Proof.
  apply (Signal_rejects_Wait_with_Promise nat nat 0%nat (mkSignaler nat [] 1)
           None None 7%nat [Wait; Promise (Some 3%nat)] 3%nat 0%nat None
           First First).
  - constructor; [left; reflexivity|].
    constructor; [right; exists 3%nat; reflexivity|constructor].
  - left. reflexivity.
  - right. left. reflexivity.
Defined.

Lemma Signal_panics_on_nil_Promise_witness :
  bilateral.Signal nat nat 0%nat (mkSignaler nat [] 1) None None 7%nat
    [Wait; Promise None] 0%nat None First First
  = Panics nat nat.
Proof.
  apply (Signal_panics_on_nil_Promise nat nat 0%nat (mkSignaler nat [] 1)
           None None 7%nat [Wait] [] 0%nat None First First).
  constructor; [left; reflexivity|constructor].
Defined.

Lemma Signal_keeps_bound_witness :
  (length (sendCh nat (mkSignaler nat [] 1)) <= 1)%nat
  /\ match bilateral.Signal nat nat 0%nat (mkSignaler nat [] 1) None None
             7%nat [] 0%nat None First First with
     | Return _ _ queue _ _ _ | Blocks _ _ queue => (length queue <= 1)%nat
     | Panics _ _ => True
     end.
Proof.
  split; [simpl; lia|].
  pose proof (Signal_keeps_bound nat nat 0%nat (mkSignaler nat [] 1) None None
                7%nat [] 0%nat None First First) as H.
  simpl in H. simpl. apply H. lia.
Defined.

Lemma signalMany_queues_in_order_witness :
  exists s',
    signalMany nat nat 0%nat (mkSignaler nat [] 5) [0; 1; 2; 3; 4]%nat 0%nat
      First = Some s'
    /\ bufferSize nat s' = 5%nat
    /\ map (data nat) (sendCh nat s') = [0; 1; 2; 3; 4]%nat.
Proof.
  apply (signalMany_queues_in_order nat nat 0%nat (mkSignaler nat [] 5)
           [0; 1; 2; 3; 4]%nat First 0%nat).
  simpl. lia.
Defined.

Lemma signal_receive_round_trip_witness :
  exists s' ackers rest,
    signalMany nat nat 0%nat (New nat [BufferSize nat 5]) [0; 1; 2; 3; 4]%nat
      0%nat First = Some s'
    /\ receiveMany nat 5 s' = Some (ackers, rest)
    /\ map (data nat) ackers = [0; 1; 2; 3; 4]%nat
    /\ sendCh nat rest = [].
Proof.
  apply (signal_receive_round_trip nat nat 0%nat 5 [0; 1; 2; 3; 4]%nat 0%nat
           First).
  simpl. lia.
Defined.

End bilateral_channel_facts.

(** ** The states of the tests, as chains *)

Module statemachine_runs_examples.
Import goerrors statemachine statemachine_test statemachine_runs
       statemachine_runs_facts.

Lemma steerReq_admissible :
  admissible Z state unit bool statemachine_test.TrimSpace "test"
    (mkRequest false (Some tt) 1 None (Some steer) None).
Proof. repeat split; discriminate. Qed.


Lemma Run_success_is_clean_witness :
  Err (mkRequest (T:=Z) (StateId:=state) false (Some tt) 11 None None None) = None
  /\ Next (mkRequest (T:=Z) (StateId:=state) false (Some tt) 11 None None None)
     = None.
Proof.
  apply (Run_success_is_clean Z state unit bool IsRecording span_New
           statemachine_test.methodName statemachine_test.TrimSpace
           statemachine_test.call 2 "test"
           (mkRequest false (Some tt) 1 None (Some steer) None)
           (mkRequest false (Some tt) 11 None None None) [steer; addTen]
           steerReq_admissible).
  reflexivity.
Defined.

Lemma test_states_make_no_bug_error (st : state) (r0 : Req) :
  Err r0 = None -> Err (statemachine_test.call st r0) <> Some execReqNextNil.
Proof.
  intros H. destruct st; simpl.
  - destruct (Data r0 =? 0); [|destruct (Data r0 =? MaxInt)]; simpl;
      rewrite H; discriminate.
  - rewrite H. discriminate.
  - discriminate.
Qed.

Lemma Run_never_makes_bug_error_witness :
  statemachine_test.Run 1 "test" addErrReq []
  <> Returned (addErrReturned, Some execReqNextNil, [addErr]).
Proof.
  apply (Run_never_makes_bug_error Z state unit bool IsRecording span_New
           statemachine_test.methodName statemachine_test.TrimSpace
           statemachine_test.call 1 "test" addErrReq addErrReturned [addErr]
           test_states_make_no_bug_error).
  repeat split; discriminate.
Defined.

End statemachine_runs_examples.

(** ** Packages grpc and http: the transformers and inspectors, continued *)

Module transformer_facts.
Import goerrors.

(** Wrapping an error together with ErrPermanent keeps every sentinel the
    error already matched. *)
Lemma Is_Errorf_ww_keeps (e : option error) (target : sentinel) :
  Is e target = true ->
  Is (Some (Errorf_ww e (Some ErrPermanent))) target = true.
Proof.
  destruct e as [x|]; simpl; [|discriminate]. intros ->. reflexivity.
Qed.

Section Grpc.
Variable Message : Type.
Variable code_of : error -> N.
Variable has_GRPCStatus : error -> bool.

Abbreviation ErrTransformer := (grpc.ErrTransformer Message code_of has_GRPCStatus).

(** The result of the grpc [ErrTransformer] still matches, under
    errors.Is, every sentinel the error matched: the cause is wrapped, not
    replaced. *)
Theorem grpc_ErrTransformer_keeps_cause (t : grpc.Transformer Message)
  (e : option error) (target : sentinel) :
  Is e target = true -> Is (ErrTransformer t e) target = true.
Proof.
  intros H. unfold grpc.ErrTransformer.
  destruct (grpc.isGRPCErr code_of has_GRPCStatus e) as [b c].
  destruct (negb b); [exact H|].
  destruct (grpc.isGRPCPermanent Message t c); [|exact H].
  apply Is_Errorf_ww_keeps. exact H.
Qed.

(** Extra codes only take errors out of the permanent ones: an error that
    a Transformer returns unchanged is returned unchanged after
    [WithExtraCodes] has added codes to it. *)
Theorem grpc_extra_codes_only_widen (t : grpc.Transformer Message)
  (codes : list N) (e : option error) :
  ErrTransformer t e = e ->
  ErrTransformer (fst (grpc.WithExtraCodes Message codes t)) e = e.
Proof.
  unfold grpc.ErrTransformer.
  destruct (grpc.isGRPCErr code_of has_GRPCStatus e) as [b c].
  destruct (negb b); [reflexivity|].
  unfold grpc.isGRPCPermanent. simpl.
  destruct (grpc.index grpc.grpcRetriable c); [reflexivity|].
  pose proof (grpc_facts.index_foldl_insert codes (grpc.extras Message t) c) as Hi.
  destruct (grpc.index (grpc.extras Message t) c) eqn:Ht.
  - intros _.
    destruct (grpc.index (foldl _ _ codes) c); [reflexivity|].
    assert (Hf : false = true) by (apply Hi; left; reflexivity). discriminate.
  - intros H. apply grpc_facts.Errorf_ww_fresh in H. contradiction.
Qed.


End Grpc.

Section Http.
Variable urlTemporary : error -> option (gort.result bool).

Abbreviation httpErrTransformer := (http_errors.ErrTransformer urlTemporary).

(** The http [ErrTransformer], where it returns, returns the error itself
    or the error wrapped together with ErrPermanent; it wraps exactly a
    url.Error whose Temporary() answers false, and the nil error stays nil.
    Either way the result matches every sentinel the error matched. *)
Theorem http_ErrTransformer_marks_permanent (e r : option error) :
  httpErrTransformer e = gort.Val r ->
  (r = Some (Errorf_ww e (Some ErrPermanent))
   <-> exists x, e = Some x /\ urlTemporary x = Some (gort.Val false))
  /\ (r = Some (Errorf_ww e (Some ErrPermanent)) \/ r = e)
  /\ (e = None -> r = None)
  /\ (forall target, Is e target = true -> Is r target = true).
Proof.
  assert (Hfresh : forall y : option error,
            y <> Some (Errorf_ww y (Some ErrPermanent))).
  { intros y H. symmetry in H. apply grpc_facts.Errorf_ww_fresh in H.
    contradiction. }
  unfold http_errors.ErrTransformer.
  destruct e as [x|].
  - destruct (urlTemporary x) as [[[|]|]|] eqn:Hu; simpl; intros H;
      try discriminate; injection H as <-.
    + split; [|split; [right; reflexivity|split; [discriminate|auto]]].
      split; [intros H; apply Hfresh in H; contradiction|].
      intros [y [Hy Hy']]. injection Hy as <-. congruence.
    + split; [|split; [left; reflexivity|split; [discriminate|]]].
      * split; [eauto|reflexivity].
      * intros target Ht. exact (Is_Errorf_ww_keeps (Some x) target Ht).
    + split; [|split; [right; reflexivity|split; [discriminate|auto]]].
      split; [intros H; apply Hfresh in H; contradiction|].
      intros [y [Hy Hy']]. injection Hy as <-. congruence.
  - simpl. intros H. injection H as <-.
    split; [|split; [right; reflexivity|split; [reflexivity|auto]]].
    split; [discriminate|]. intros [y [Hy _]]. discriminate.
Qed.

End Http.

Section HttpInspect.
Variable Response : Type.

Abbreviation hinspect := (http.inspect Response).

(** The http loop keeps nil as long as the inspectors return nil. *)
Lemma http_inspect_all_nil (fs : list (http.RespToErrFn Response)) (r : Response) :
  (forall f, In f fs -> f r = None) ->
  forall i log, fst (hinspect fs r None i log) = None.
Proof.
  induction fs as [|f fs IH]; intros Hall i log; simpl; [reflexivity|].
  rewrite (Hall f) by (left; reflexivity).
  apply IH. intros g Hg. apply Hall. right. exact Hg.
Qed.

(** The error the http loop returns carries the permanent marker exactly
    when what was collected carried it or an inspector gives an error that
    carries it. *)
Lemma http_inspect_permanent (fs : list (http.RespToErrFn Response)) (r : Response) :
  forall retErr i log,
    Is (fst (hinspect fs r retErr i log)) Permanent
    = Is retErr Permanent || existsb (fun f => Is (f r) Permanent) fs.
Proof.
  induction fs as [|f fs IH]; intros retErr i log; simpl.
  - rewrite orb_false_r. reflexivity.
  - destruct (f r) as [x|] eqn:Hf.
    + simpl. destruct (Is_sentinel x Permanent) eqn:Hx.
      * simpl. destruct retErr as [y|]; simpl; rewrite ?Hx, ?orb_true_r;
          reflexivity.
      * rewrite IH. destruct retErr as [y|]; simpl; rewrite ?Hx, ?orb_false_r;
          reflexivity.
    + rewrite IH. reflexivity.
Qed.

(** [RespToErr] of package http, called with a nil error: the result is nil
    exactly when every inspector returns nil. *)
Theorem http_RespToErr_nil_iff (fs : list (http.RespToErrFn Response))
  (r : Response) :
  snd (fst (http.RespToErr Response (http.New Response fs) r None)) = None
  <-> forall f, In f fs -> f r = None.
Proof.
  unfold http.RespToErr, http.New. simpl.
  destruct fs as [|f fs]; [simpl; split; [intros _ g []|reflexivity]|].
  simpl length. simpl Nat.eqb. cbv iota.
  destruct (hinspect (f :: fs) r None 0%nat []) as [e log] eqn:Hrun. simpl.
  assert (He : e = fst (hinspect (f :: fs) r None 0%nat []))
    by (rewrite Hrun; reflexivity).
  split.
  - intros Hnil g Hg. destruct (g r) as [x|] eqn:Hgr; [|reflexivity].
    exfalso.
    apply (inspector_facts.http_inspect_never_swallows Response (f :: fs) r
             None 0%nat []); [|congruence].
    exists g. split; [exact Hg|congruence].
  - intros Hall. rewrite He. apply http_inspect_all_nil. exact Hall.
Qed.

(** [RespToErr] of package http, called with a nil error: the result
    carries the permanent marker exactly when some inspector gives an error
    that carries it. *)
Theorem http_RespToErr_permanent_iff (fs : list (http.RespToErrFn Response))
  (r : Response) :
  Is (snd (fst (http.RespToErr Response (http.New Response fs) r None))) Permanent
  = existsb (fun f => Is (f r) Permanent) fs.
Proof.
  unfold http.RespToErr, http.New. simpl.
  destruct fs as [|f fs]; [reflexivity|].
  simpl length. simpl Nat.eqb. cbv iota.
  pose proof (http_inspect_permanent (f :: fs) r None 0%nat []) as H.
  destruct (hinspect (f :: fs) r None 0%nat []) as [e log]. exact H.
Qed.

(** [RespToErr] of package http stops at the first inspector whose error
    carries the permanent marker: the inspectors before it are called in
    order, and none after it. *)
Theorem http_RespToErr_stops_at_permanent
  (pre post : list (http.RespToErrFn Response)) (f : http.RespToErrFn Response)
  (r : Response) :
  (forall g, In g pre -> Is (g r) Permanent = false) ->
  Is (f r) Permanent = true ->
  snd (http.RespToErr Response (http.New Response (pre ++ f :: post)) r None)
  = seq 0 (S (length pre)).
Proof.
  intros Hpre Hf. unfold http.RespToErr, http.New. simpl.
  destruct (length (pre ++ f :: post)) eqn:Hl;
    [rewrite length_app in Hl; simpl in Hl; lia|].
  simpl Nat.eqb. cbv iota.
  pose proof (inspector_facts.http_inspect_short_circuit Response pre post f r
                Hpre Hf None 0%nat []) as H.
  destruct (hinspect (pre ++ f :: post) r None 0%nat []) as [e log]. exact H.
Qed.

End HttpInspect.

Section GrpcInspect.
Variable Message : Type.
Variable code_of : error -> N.
Variable has_GRPCStatus : error -> bool.

(** [RespToErr] of package grpc, called with a nil error, stops at the
    first inspector whose error carries the permanent marker: that error is
    the result, the inspectors before it are called in order, and none
    after it. *)
Theorem grpc_RespToErr_stops_at_permanent (exts : gmap N bool) (r : Message)
  (pre post : list (grpc.ProtoToErr Message)) (f : grpc.ProtoToErr Message) :
  (forall g, In g pre -> Is (g r) Permanent = false) ->
  Is (f r) Permanent = true ->
  grpc.RespToErr Message (grpc.mkTransformer Message exts (pre ++ f :: post))
    r None
  = (r, f r, seq 0 (S (length pre))).
Proof.
  intros Hpre Hf. unfold grpc.RespToErr. cbn [grpc.protosToErrs].
  destruct (length (pre ++ f :: post)) eqn:Hl;
    [rewrite length_app in Hl; simpl in Hl; lia|].
  simpl Nat.eqb. cbv iota.
  rewrite (inspector_facts.grpc_inspect_short_circuit Message pre post f r
             Hpre Hf None 0%nat []).
  reflexivity.
Qed.

(** Both [RespToErr] hand the response back as it came, and with an error
    already set or without inspectors they return that error and call no
    inspector. *)
Theorem RespToErr_passes_through (Response : Type) (r : Message) (r' : Response)
  (e : option error) (t : grpc.Transformer Message)
  (t' : http.Transformer Response) :
  fst (fst (grpc.RespToErr Message t r e)) = r
  /\ fst (fst (http.RespToErr Response t' r' e)) = r'
  /\ (e <> None \/ grpc.protosToErrs Message t = [] ->
      grpc.RespToErr Message t r e = (r, e, []))
  /\ (e <> None \/ http.respToErrs Response t' = [] ->
      http.RespToErr Response t' r' e = (r', e, [])).
Proof.
  unfold grpc.RespToErr, http.RespToErr.
  split; [|split; [|split]].
  - destruct (length (grpc.protosToErrs Message t) =? 0)%nat; [reflexivity|].
    destruct e; [reflexivity|].
    destruct (grpc.inspect Message _ r None 0%nat []). reflexivity.
  - destruct (length (http.respToErrs Response t') =? 0)%nat; [reflexivity|].
    destruct e; [reflexivity|].
    destruct (http.inspect Response _ r' None 0%nat []). reflexivity.
  - intros [He|Hfs].
    + destruct (length (grpc.protosToErrs Message t) =? 0)%nat; [reflexivity|].
      destruct e; [reflexivity|contradiction].
    + rewrite Hfs. reflexivity.
  - intros [He|Hfs].
    + destruct (length (http.respToErrs Response t') =? 0)%nat; [reflexivity|].
      destruct e; [reflexivity|contradiction].
    + rewrite Hfs. reflexivity.
Qed.

End GrpcInspect.

End transformer_facts.

Module transformer_examples.
Import goerrors transformer_facts.

Lemma grpc_ErrTransformer_keeps_cause_witness :
  Is (grpc.ErrTransformer unit grpc.code_of_direct grpc.has_GRPCStatus_direct
        (grpc.mkTransformer unit ∅ [])
        (Some (errWrap "call failed" (errSentinel DeadlineExceeded))))
     DeadlineExceeded = true.
Proof.
  apply (grpc_ErrTransformer_keeps_cause unit grpc.code_of_direct
           grpc.has_GRPCStatus_direct (grpc.mkTransformer unit ∅ [])
           (Some (errWrap "call failed" (errSentinel DeadlineExceeded)))
           DeadlineExceeded).
  reflexivity.
Defined.

Lemma grpc_extra_codes_only_widen_witness :
  grpc.ErrTransformer unit grpc.code_of_direct grpc.has_GRPCStatus_direct
    (fst (grpc.WithExtraCodes unit [grpc.NotFound]
            (grpc.mkTransformer unit ∅ [])))
    grpc.unavailableErr
  = grpc.unavailableErr.
Proof.
  apply (grpc_extra_codes_only_widen unit grpc.code_of_direct
           grpc.has_GRPCStatus_direct (grpc.mkTransformer unit ∅ [])
           [grpc.NotFound] grpc.unavailableErr).
  reflexivity.
Defined.

Lemma http_ErrTransformer_marks_permanent_witness :
  http_errors.ErrTransformer (fun _ => Some (gort.Val false))
    (Some (errString "some error"))
  = gort.Val (Some (Errorf_ww (Some (errString "some error")) (Some ErrPermanent)))
  /\ exists x, Some (errString "some error") = Some x
               /\ (fun _ : error => Some (gort.Val false)) x
                  = Some (gort.Val false).
Proof.
  split; [reflexivity|].
  destruct (http_ErrTransformer_marks_permanent (fun _ => Some (gort.Val false))
              (Some (errString "some error"))
              (Some (Errorf_ww (Some (errString "some error")) (Some ErrPermanent)))
              eq_refl) as [Hiff _].
  apply Hiff. reflexivity.
Defined.

Lemma http_RespToErr_stops_at_permanent_witness :
  snd (http.RespToErr unit
         (http.New unit [grpc.findsError;
                         (fun _ => Some (Errorf_ww (Some (errString "some error"))
                                                   (Some ErrPermanent)));
                         grpc.findsNothing]) tt None)
  = [0; 1]%nat.
Proof.
  apply (http_RespToErr_stops_at_permanent unit [grpc.findsError]
           [grpc.findsNothing]
           (fun _ => Some (Errorf_ww (Some (errString "some error"))
                                     (Some ErrPermanent))) tt).
  - intros g [<-|[]]. reflexivity.
  - reflexivity.
Defined.

Lemma grpc_RespToErr_stops_at_permanent_witness :
  grpc.RespToErr unit
    (grpc.mkTransformer unit ∅
       [grpc.findsError;
        (fun _ => Some (Errorf_ww (Some (errString "some error"))
                                  (Some ErrPermanent)));
        grpc.findsNothing]) tt None
  = (tt, Some (Errorf_ww (Some (errString "some error")) (Some ErrPermanent)),
     [0; 1]%nat).
Proof.
  apply (grpc_RespToErr_stops_at_permanent unit ∅ tt [grpc.findsError]
           [grpc.findsNothing]
           (fun _ => Some (Errorf_ww (Some (errString "some error"))
                                     (Some ErrPermanent)))).
  - intros g [<-|[]]. reflexivity.
  - reflexivity.
Defined.

Lemma RespToErr_passes_through_witness :
  grpc.RespToErr unit (grpc.mkTransformer unit ∅ [grpc.findsError]) tt
    (Some (errString "some error"))
  = (tt, Some (errString "some error"), []).
Proof.
  destruct (RespToErr_passes_through unit unit tt tt
              (Some (errString "some error"))
              (grpc.mkTransformer unit ∅ [grpc.findsError])
              (http.New unit [])) as [_ [_ [H _]]].
  apply H. left. discriminate.
Defined.

End transformer_examples.

(** ** Package exponential: permanent errors and the RetryTester *)

Module exponential_more_facts.
Import goerrors exponential retrytester.
Import gort.

(** [PermanentErr] keeps the cause.  For every error other than a nil
    pointer to Error held in the interface it returns an Error value with
    the flag set whose text is the text of the error given; applied to its
    own result it returns that result again; and an Error given keeps its
    wrapped error, its record and its cancelled flag. *)
Theorem PermanentErr_keeps_cause (st : sentinel -> string) (e : option error) :
  e <> Some (errRetry None) ->
  exists s,
    PermanentErr e = Val (errRetry (Some s))
    /\ permanent s = true
    /\ PermanentErr (Some (errRetry (Some s))) = Val (errRetry (Some s))
    /\ text st (errRetry (Some s))
       = match e with Some x => text st x | None => "" end
    /\ (forall s0, e = Some (errRetry (Some s0)) ->
          err s = err s0 /\ rec s = rec s0 /\ cancelled s = cancelled s0)
    /\ ((forall s0, e <> Some (errRetry (Some s0))) -> err s = e).
Proof.
  intros Hne.
  destruct e as [[sn|msg|msg inner|inners|code msg|[[w p r c]|]]|];
    try (eexists; split; [reflexivity|];
         split; [reflexivity|]; split; [reflexivity|];
         split; [reflexivity|]; split;
         [intros s0 H; discriminate|intros H; reflexivity]).
  - eexists. split; [reflexivity|]. split; [reflexivity|].
    split; [reflexivity|]. split; [destruct w; reflexivity|]. split.
    + intros s0 H. injection H as <-. simpl. auto.
    + intros H. exfalso. apply (H (mkError w p r c)). reflexivity.
  - congruence.
Qed.

Lemma PermanentErr_keeps_cause_witness :
  exists s,
    PermanentErr (Some (errString "permanent failure")) = Val (errRetry (Some s))
    /\ permanent s = true.
Proof.
  destruct (PermanentErr_keeps_cause (fun _ => "") (Some (errString "permanent failure")))
    as [s [H1 [H2 _]]]; [discriminate|].
  exists s. split; assumption.
Defined.

Lemma IsPermanent_PermanentErr_witness :
  exists r, PermanentErr (Some (errString "permanent failure")) = Val r
            /\ IsPermanent (Some r) = true.
Proof.
  apply (exponential_facts.IsPermanent_PermanentErr
           (Some (errString "permanent failure"))).
  discriminate.
Defined.

(** The tester after [k] calls. *)
Lemma calls_nth (n : nat) :
  forall r k, (k < n)%nat ->
    nth_error (calls n r) k
    = Some (fst (Run (mkRetryTester (failures r) (count r + k)))).
Proof.
  induction n as [|n IH]; intros r k Hk; [lia|].
  destruct r as [f c]. destruct k as [|k].
  - simpl. rewrite Nat.add_0_r.
    destruct (Run (mkRetryTester f c)) as [[d e] r'] eqn:Hrun. reflexivity.
  - cbn [calls].
    assert (Hnext : snd (Run (mkRetryTester f c)) = mkRetryTester f (S c)).
    { unfold Run. simpl.
      repeat match goal with |- context [if ?b then _ else _] => destruct b end;
        reflexivity. }
    destruct (Run (mkRetryTester f c)) as [[d e] r'] eqn:Hrun.
    simpl in Hnext. subst r'. cbn [nth_error]. rewrite IH by lia. simpl.
    replace (c + S k)%nat with (S (c + k)) by lia. reflexivity.
Qed.

(** A RetryTester with a list of errors returns them one call after the
    other, a nil entry included, and after the last one every call
    succeeds and reports its own number. *)
Theorem RetryTester_returns_errors_in_order (f : Failures) (n k : nat) :
  errors f <> [] -> (k < n)%nat ->
  nth_error (calls n (NewRetryTester f)) k
  = Some (if (k <? length (errors f))%nat
          then (zeroRetryData, nth k (errors f) None)
          else (mkRetryData (Z.of_nat k + 1), None)).
Proof.
  intros Hne Hk. rewrite calls_nth by exact Hk. simpl. unfold Run. simpl.
  destruct (errors f) as [|e0 es] eqn:He; [contradiction|].
  simpl length. change (0 <? S (length es))%nat with true. cbv iota.
  destruct (k <? S (length es))%nat; reflexivity.
Qed.

(** A RetryTester without a list of errors and with numFailures m >= 0
    fails its first m calls and succeeds from call m + 1 on, reporting the
    number of the call; among the failures, the call after failPermanent
    earlier ones returns ErrPermanent when failPermanent is positive, and
    every other one a transient error.  With a negative numFailures every
    call fails with a transient error. *)
Theorem RetryTester_fails_then_succeeds (f : Failures) (n k : nat) :
  errors f = [] -> (k < n)%nat ->
  nth_error (calls n (NewRetryTester f)) k
  = Some (if numFailures f <? 0 then (zeroRetryData, Some transient)
          else if Z.of_nat k <? numFailures f then
            if (Z.of_nat k =? failPermanent f) && (0 <? failPermanent f)
            then (zeroRetryData, Some ErrPermanent)
            else (zeroRetryData, Some transient)
          else (mkRetryData (Z.of_nat k + 1), None))
  /\ (0 <= numFailures f ->
      (snd (nth k (calls n (NewRetryTester f)) (zeroRetryData, None)) = None
       <-> numFailures f <= Z.of_nat k)).
Proof.
  intros He Hk.
  assert (Hnth :
    nth_error (calls n (NewRetryTester f)) k
    = Some (if numFailures f <? 0 then (zeroRetryData, Some transient)
            else if Z.of_nat k <? numFailures f then
              if (Z.of_nat k =? failPermanent f) && (0 <? failPermanent f)
              then (zeroRetryData, Some ErrPermanent)
              else (zeroRetryData, Some transient)
            else (mkRetryData (Z.of_nat k + 1), None))).
  { rewrite calls_nth by exact Hk. simpl. unfold Run. simpl. rewrite He.
    simpl.
    destruct (numFailures f <? 0); [reflexivity|].
    destruct (Z.of_nat k <? numFailures f); [|reflexivity].
    destruct ((Z.of_nat k =? failPermanent f) && (0 <? failPermanent f));
      reflexivity. }
  split; [exact Hnth|]. intros Hm.
  rewrite (nth_error_nth _ _ _ Hnth).
  destruct (Z.ltb_spec (numFailures f) 0) as [H|_]; [lia|].
  destruct (Z.ltb_spec (Z.of_nat k) (numFailures f)) as [H|H].
  - destruct ((Z.of_nat k =? failPermanent f) && (0 <? failPermanent f));
      simpl; split; [discriminate|lia|discriminate|lia].
  - simpl. split; [intros _; exact H|reflexivity].
Qed.

Lemma RetryTester_returns_errors_in_order_witness :
  nth_error (calls 3 (NewRetryTester
                        (mkFailures [Some transient; Some ErrPermanent] 0 0))) 1
  = Some (zeroRetryData, Some ErrPermanent).
Proof.
  apply (RetryTester_returns_errors_in_order
           (mkFailures [Some transient; Some ErrPermanent] 0 0) 3 1).
  - discriminate.
  - lia.
Defined.

Lemma RetryTester_fails_then_succeeds_witness :
  nth_error (calls 12 (NewRetryTester (mkFailures [] 11 0))) 11
  = Some (mkRetryData 12, None).
Proof.
  apply (RetryTester_fails_then_succeeds (mkFailures [] 11 0) 12 11).
  - reflexivity.
  - lia.
Defined.

End exponential_more_facts.

(** ** Package statemachine: the options of Run *)

Module statemachine_options_facts.
Import goerrors statemachine.

Section Machine.
Variable T : Type.
Variable StateId : Type.
Variable Context : Type.
Variable Span : Type.
Variable IsRecording : Span -> bool.
Variable span_New : option Context -> string -> Context * Span.
Variable methodName : StateId -> string.
Variable TrimSpace : string -> string.
Variable call : StateId -> Request T StateId Context Span
                -> Request T StateId Context Span.

Abbreviation Req := (Request T StateId Context Span).
Abbreviation applyOptions := (statemachine.applyOptions T StateId Context Span).

Lemma applyOptions_app (pre rest : list (Option T StateId Context Span))
  (req req1 : Req) :
  applyOptions pre req = (req1, None) ->
  applyOptions (pre ++ rest) req = applyOptions rest req1.
Proof.
  revert req. induction pre as [|o pre IH]; intros req H; simpl in *.
  - injection H as <-. reflexivity.
  - destruct (o req) as [req' [x|]]; [discriminate|]. apply IH. exact H.
Qed.

(** The first option that fails ends [Run]: for a request that passes the
    entry checks, [Run] returns the error of that option with the request as
    the option left it, Next not cleared; the options after it are not
    applied and no state is called. *)
Theorem Run_stops_at_failing_option (fuel : nat) (name : string)
  (req req1 req2 : Req) (pre post : list (Option T StateId Context Span))
  (o : Option T StateId Context Span) (x : error) :
  admissible T StateId Context Span TrimSpace name req ->
  applyOptions pre req = (req1, None) ->
  o req1 = (req2, Some x) ->
  statemachine.Run T StateId Context Span IsRecording span_New methodName
    TrimSpace call fuel name req (pre ++ o :: post)
  = Returned (req2, Some x, []).
Proof.
  intros Hadm Hpre Ho.
  rewrite (statemachine_facts.Run_admissible T StateId Context Span IsRecording
             span_New methodName TrimSpace call fuel name req _ Hadm).
  rewrite (applyOptions_app pre (o :: post) req req1 Hpre).
  simpl. rewrite Ho. reflexivity.
Qed.

End Machine.

Lemma Run_stops_at_failing_option_witness :
  statemachine_test.Run 0 "test" statemachine_test.addErrReq
    [(fun r => (r, None)); (fun r => (r, Some (errString "option failed")))]
  = Returned (statemachine_test.addErrReq,
              Some (errString "option failed"), []).
Proof.
  apply (Run_stops_at_failing_option Z statemachine_test.state unit bool
           statemachine_test.IsRecording statemachine_test.span_New
           statemachine_test.methodName statemachine_test.TrimSpace
           statemachine_test.call 0 "test" statemachine_test.addErrReq
           statemachine_test.addErrReq statemachine_test.addErrReq
           [(fun r => (r, None))] []
           (fun r => (r, Some (errString "option failed")))
           (errString "option failed")).
  - repeat split; discriminate.
  - reflexivity.
  - reflexivity.
Defined.

End statemachine_options_facts.
